(** * A shallow embedding of the notes manager (src/app/page.tsx)

    The React component [NotesApp] keeps a list of [Note] records in component
    state, mirrors it into the [localStorage] slot ['notes'] as JSON, and
    derives the visible list from a search query and a tag filter.

    Strings are modelled as Rocq [string]s whose characters are the UTF-16 code
    units 0..255 (the Latin-1 block); [toLowerCase] and [trim] are the
    ECMAScript functions restricted to that block.  Timestamps
    ([Date.now()]) are integers, modelled as [Z]. *)

From Stdlib Require Import String Ascii List Bool ZArith Lia.
From Stdlib Require Import Sorting.Permutation Sorting.Sorted Relations.
From Stdlib Require Numbers.DecimalFacts Numbers.DecimalN.
Import ListNotations.
Open Scope string_scope.
Open Scope list_scope.

(* ------------------------------------------------------------------ *)
(** ** JavaScript string primitives *)

Module JSString.

(** [String.prototype.toLowerCase] on one code unit of the Latin-1 block:
    'A'..'Z' and U+00C0..U+00DE (except U+00D7, the multiplication sign)
    map to the code unit 32 above. *)
Definition lower_char (c : ascii) : ascii :=
  let n := nat_of_ascii c in
  if (Nat.leb 65 n && Nat.leb n 90) ||
     (Nat.leb 192 n && Nat.leb n 222 && negb (Nat.eqb n 215))
  then ascii_of_nat (n + 32)%nat else c.

Fixpoint toLowerCase (s : string) : string :=
  match s with
  | EmptyString => EmptyString
  | String c s' => String (lower_char c) (toLowerCase s')
  end.

(** ECMAScript WhiteSpace and LineTerminator code units of the block:
    TAB, LF, VT, FF, CR, SPACE and NO-BREAK SPACE. *)
Definition is_ws (c : ascii) : bool :=
  let n := nat_of_ascii c in
  (Nat.leb 9 n && Nat.leb n 13) || Nat.eqb n 32 || Nat.eqb n 160.

Fixpoint trimStart (s : string) : string :=
  match s with
  | EmptyString => EmptyString
  | String c s' => if is_ws c then trimStart s' else s
  end.

Fixpoint trimEnd (s : string) : string :=
  match s with
  | EmptyString => EmptyString
  | String c s' =>
      let t := trimEnd s' in
      if is_ws c && String.eqb t "" then EmptyString else String c t
  end.

(** [String.prototype.trim] *)
Definition trim (s : string) : string := trimEnd (trimStart s).

(** [s.includes(q)]: [q] occurs in [s] at some index (the empty string
    occurs everywhere). *)
Fixpoint includes (s q : string) : bool :=
  String.prefix q s ||
  match s with
  | EmptyString => false
  | String _ s' => includes s' q
  end.

(** JavaScript truthiness of a string: non-empty. *)
Definition truthy (s : string) : bool := negb (String.eqb s "").

End JSString.

Import JSString.

(* ------------------------------------------------------------------ *)
(** ** The data model: [interface Note] *)

Record Note := mkNote {
  id : string;
  title : string;
  content : string;
  tags : list string;
  createdAt : Z;
  updatedAt : Z
}.

(* ------------------------------------------------------------------ *)
(** ** The visible list: [filteredNotes] (lines 45-56) *)

Section Filter.

Variable searchQuery : string.
Variable selectedTag : option string.

(** [matchesSearch] of the filter callback *)
Definition matchesSearch (note : Note) : bool :=
  String.eqb searchQuery "" ||
  includes (toLowerCase (title note)) (toLowerCase searchQuery) ||
  includes (toLowerCase (content note)) (toLowerCase searchQuery) ||
  existsb (fun tag => includes (toLowerCase tag) (toLowerCase searchQuery)) (tags note).

(** [matchesTag]: [selectedTag === null || note.tags.includes(selectedTag)] *)
Definition matchesTag (note : Note) : bool :=
  match selectedTag with
  | None => true
  | Some t => existsb (String.eqb t) (tags note)
  end.

End Filter.

(** The comparator [(a, b) => b.updatedAt - a.updatedAt]. *)
Definition byUpdatedDesc (a b : Note) : Z := updatedAt b - updatedAt a.

(** [Array.prototype.sort] is stable (ECMAScript 2019); with a consistent
    comparator its result is the one of a stable insertion sort: an element
    is placed before the first later element it does not compare above. *)
Fixpoint insert_by (cmp : Note -> Note -> Z) (x : Note) (l : list Note) : list Note :=
  match l with
  | [] => [x]
  | y :: l' => if Z.leb (cmp x y) 0 then x :: y :: l' else y :: insert_by cmp x l'
  end.

Fixpoint sort_by (cmp : Note -> Note -> Z) (l : list Note) : list Note :=
  match l with
  | [] => []
  | x :: l' => insert_by cmp x (sort_by cmp l')
  end.

Definition filteredNotes (notes : list Note) (searchQuery : string)
    (selectedTag : option string) : list Note :=
  sort_by byUpdatedDesc
    (filter (fun note => matchesSearch searchQuery note && matchesTag selectedTag note) notes).

(* ------------------------------------------------------------------ *)
(** ** The host's JSON codec: [JSON.stringify] and [JSON.parse]

    The slot ['notes'] holds [JSON.stringify(notes)]; on mount the component
    reads it back with [JSON.parse].  Both are runtime functions, modelled
    here on the texts they handle: [JSON_stringify] on arrays of [Note]
    records (keys in the order the component builds them, integer
    timestamps), [JSON_parse] as a parser of the whole JSON grammar
    (ECMA-404), [None] standing for the [SyntaxError] it throws.  The texts
    are the model's strings, one Latin-1 code unit per character; the strings
    [JSON_parse] builds are lists of UTF-16 code units, since a [\uXXXX]
    escape reaches all of them, and its numbers keep their sign, digits and
    exponent exactly. *)

Module JSON.

Local Set Warnings "-register-all".

(** A parsed value.  A number keeps its sign, its digits and its decimal
    exponent: [JNum neg m e] is the decimal [(-1)^neg * m * 10^e] of the
    text, so that ["-0"] stays negative zero.  A string is the sequence of
    its UTF-16 code units: a [\uXXXX] escape denotes any unit 0..FFFF, also
    outside the Latin-1 block of the model's texts. *)
Inductive json : Type :=
| JNull
| JBool (b : bool)
| JNum (neg : bool) (m : N) (e : Z)
| JStr (s : list N)
| JArr (vs : list json)
| JObj (ms : list (list N * json)).

(** The code units of a string of the model. *)
Definition units_of (s : string) : list N := map N_of_ascii (list_ascii_of_string s).

Definition quote : ascii := ascii_of_nat 34.
Definition bslash : ascii := "\"%char.

(** *** [JSON.stringify] *)

Definition hex_digit (n : nat) : ascii :=
  if Nat.ltb n 10 then ascii_of_nat (48 + n) else ascii_of_nat (87 + n).

(** QuoteJSONString: the short escapes, [\u00xx] for the other control
    code units, every other code unit as it is. *)
Definition escape_char (c : ascii) : list ascii :=
  let n := nat_of_ascii c in
  if Nat.eqb n 8 then [bslash; "b"%char]
  else if Nat.eqb n 9 then [bslash; "t"%char]
  else if Nat.eqb n 10 then [bslash; "n"%char]
  else if Nat.eqb n 12 then [bslash; "f"%char]
  else if Nat.eqb n 13 then [bslash; "r"%char]
  else if Nat.eqb n 34 then [bslash; quote]
  else if Nat.eqb n 92 then [bslash; bslash]
  else if Nat.ltb n 32 then
    [bslash; "u"%char; "0"%char; "0"%char; hex_digit (n / 16); hex_digit (n mod 16)]
  else [c].

Definition quote_string (s : string) : list ascii :=
  quote :: flat_map escape_char (list_ascii_of_string s) ++ [quote].

Fixpoint uint_chars (d : Decimal.uint) : list ascii :=
  match d with
  | Decimal.Nil => []
  | Decimal.D0 d => "0"%char :: uint_chars d
  | Decimal.D1 d => "1"%char :: uint_chars d
  | Decimal.D2 d => "2"%char :: uint_chars d
  | Decimal.D3 d => "3"%char :: uint_chars d
  | Decimal.D4 d => "4"%char :: uint_chars d
  | Decimal.D5 d => "5"%char :: uint_chars d
  | Decimal.D6 d => "6"%char :: uint_chars d
  | Decimal.D7 d => "7"%char :: uint_chars d
  | Decimal.D8 d => "8"%char :: uint_chars d
  | Decimal.D9 d => "9"%char :: uint_chars d
  end.

(** Number::toString on an integer (below 10^21 in magnitude, as every
    [Date.now()] value is). *)
Definition number_chars (z : Z) : list ascii :=
  (if Z.ltb z 0 then ["-"%char] else []) ++ uint_chars (N.to_uint (Z.abs_N z)).

Fixpoint join (xs : list (list ascii)) : list ascii :=
  match xs with
  | [] => []
  | [x] => x
  | x :: xs' => x ++ ","%char :: join xs'
  end.

Definition member (k : string) (v : list ascii) : list ascii :=
  quote_string k ++ ":"%char :: v.

Definition array_chars (vs : list (list ascii)) : list ascii :=
  "["%char :: join vs ++ ["]"%char].

Definition object_chars (ms : list (list ascii)) : list ascii :=
  "{"%char :: join ms ++ ["}"%char].

Definition note_chars (n : Note) : list ascii :=
  object_chars
    [member "id" (quote_string (id n));
     member "title" (quote_string (title n));
     member "content" (quote_string (content n));
     member "tags" (array_chars (map quote_string (tags n)));
     member "createdAt" (number_chars (createdAt n));
     member "updatedAt" (number_chars (updatedAt n))].

Definition JSON_stringify (notes : list Note) : string :=
  string_of_list_ascii (array_chars (map note_chars notes)).

(** *** [JSON.parse] *)

Definition json_ws (c : ascii) : bool :=
  let n := nat_of_ascii c in
  Nat.eqb n 9 || Nat.eqb n 10 || Nat.eqb n 13 || Nat.eqb n 32.

Fixpoint skip_ws (l : list ascii) : list ascii :=
  match l with
  | c :: r => if json_ws c then skip_ws r else l
  | [] => []
  end.

Definition hex_val (c : ascii) : option nat :=
  let n := nat_of_ascii c in
  if Nat.leb 48 n && Nat.leb n 57 then Some (n - 48)
  else if Nat.leb 97 n && Nat.leb n 102 then Some (n - 87)
  else if Nat.leb 65 n && Nat.leb n 70 then Some (n - 55)
  else None.

Definition unescape (e : ascii) : option ascii :=
  let n := nat_of_ascii e in
  if Nat.eqb n 34 then Some quote
  else if Nat.eqb n 92 then Some bslash
  else if Nat.eqb n 47 then Some "/"%char
  else if Nat.eqb n 98 then Some (ascii_of_nat 8)
  else if Nat.eqb n 102 then Some (ascii_of_nat 12)
  else if Nat.eqb n 110 then Some (ascii_of_nat 10)
  else if Nat.eqb n 114 then Some (ascii_of_nat 13)
  else if Nat.eqb n 116 then Some (ascii_of_nat 9)
  else None.

Definition cons_fst (c : N) (r : option (list N * list ascii))
    : option (list N * list ascii) :=
  match r with
  | Some (s, rest) => Some (c :: s, rest)
  | None => None
  end.

(** The code units of a string literal, read from the characters after its
    opening quote up to and including the closing quote. *)
Fixpoint string_body (l : list ascii) : option (list N * list ascii) :=
  match l with
  | [] => None
  | c :: r =>
      if Ascii.eqb c quote then Some ([], r)
      else if Ascii.eqb c bslash then
        match r with
        | [] => None
        | e :: r1 =>
            if Ascii.eqb e "u"%char then
              match r1 with
              | h1 :: h2 :: h3 :: h4 :: r2 =>
                  match hex_val h1, hex_val h2, hex_val h3, hex_val h4 with
                  | Some a, Some b, Some c', Some d =>
                      cons_fst (N.of_nat (((a * 16 + b) * 16 + c') * 16 + d)) (string_body r2)
                  | _, _, _, _ => None
                  end
              | _ => None
              end
            else
              match unescape e with
              | Some c' => cons_fst (N_of_ascii c') (string_body r1)
              | None => None
              end
        end
      else if Nat.ltb (nat_of_ascii c) 32 then None
      else cons_fst (N_of_ascii c) (string_body r)
  end.

Definition digit (c : ascii) : option (Decimal.uint -> Decimal.uint) :=
  let n := nat_of_ascii c in
  if Nat.eqb n 48 then Some Decimal.D0
  else if Nat.eqb n 49 then Some Decimal.D1
  else if Nat.eqb n 50 then Some Decimal.D2
  else if Nat.eqb n 51 then Some Decimal.D3
  else if Nat.eqb n 52 then Some Decimal.D4
  else if Nat.eqb n 53 then Some Decimal.D5
  else if Nat.eqb n 54 then Some Decimal.D6
  else if Nat.eqb n 55 then Some Decimal.D7
  else if Nat.eqb n 56 then Some Decimal.D8
  else if Nat.eqb n 57 then Some Decimal.D9
  else None.

(** The longest run of digits at the head of [l]. *)
Fixpoint digits (l : list ascii) : Decimal.uint * list ascii :=
  match l with
  | c :: r =>
      match digit c with
      | Some d => let (u, rest) := digits r in (d u, rest)
      | None => (Decimal.Nil, l)
      end
  | [] => (Decimal.Nil, [])
  end.

(** [int]: ['0'] or a non-zero digit followed by digits. *)
Definition int_part (l : list ascii) : option (Decimal.uint * list ascii) :=
  match l with
  | c :: r =>
      if Ascii.eqb c "0"%char then Some (Decimal.D0 Decimal.Nil, r)
      else match digit c with
           | Some _ => Some (digits l)
           | None => None
           end
  | [] => None
  end.

(** [frac]: absent, or ['.'] and at least one digit. *)
Definition frac_part (l : list ascii) : option (Decimal.uint * list ascii) :=
  match l with
  | c :: r =>
      if Ascii.eqb c "."%char then
        match digits r with
        | (Decimal.Nil, _) => None
        | res => Some res
        end
      else Some (Decimal.Nil, l)
  | [] => Some (Decimal.Nil, [])
  end.

(** [exp]: absent, or ['e'] / ['E'], an optional sign and at least one digit. *)
Definition exp_part (l : list ascii) : option (Z * list ascii) :=
  match l with
  | c :: r =>
      if Ascii.eqb c "e"%char || Ascii.eqb c "E"%char then
        let '(neg, r1) :=
          match r with
          | s :: r' => if Ascii.eqb s "-"%char then (true, r')
                       else if Ascii.eqb s "+"%char then (false, r') else (false, r)
          | [] => (false, r)
          end in
        match digits r1 with
        | (Decimal.Nil, _) => None
        | (u, r2) => let x := Z.of_N (N.of_uint u) in Some (if neg then Z.opp x else x, r2)
        end
      else Some (0%Z, l)
  | [] => Some (0%Z, [])
  end.

Definition minus_sign (l : list ascii) : bool * list ascii :=
  match l with
  | c :: r => if Ascii.eqb c "-"%char then (true, r) else (false, l)
  | [] => (false, l)
  end.

(** [number]: an optional minus sign, [int], [frac] and [exp]. *)
Definition number (l : list ascii) : option (json * list ascii) :=
  let '(neg, l1) := minus_sign l in
  match int_part l1 with
  | None => None
  | Some (i, l2) =>
      match frac_part l2 with
      | None => None
      | Some (f, l3) =>
          match exp_part l3 with
          | None => None
          | Some (x, l4) =>
              Some (JNum neg (N.of_uint (Decimal.app i f))
                         (x - Z.of_nat (Decimal.nb_digits f))%Z, l4)
          end
      end
  end.

Fixpoint strip (p l : list ascii) : option (list ascii) :=
  match p, l with
  | [], _ => Some l
  | a :: p', b :: l' => if Ascii.eqb a b then strip p' l' else None
  | _ :: _, [] => None
  end.

Definition literal (l : list ascii) : option (json * list ascii) :=
  match strip ["t"; "r"; "u"; "e"]%char l with
  | Some r => Some (JBool true, r)
  | None =>
    match strip ["f"; "a"; "l"; "s"; "e"]%char l with
    | Some r => Some (JBool false, r)
    | None =>
      match strip ["n"; "u"; "l"; "l"]%char l with
      | Some r => Some (JNull, r)
      | None => number l
      end
    end
  end.

(** A value, with the text after it; [fuel] bounds the number of nested
    calls and is chosen from the length of the text. *)
Fixpoint value (fuel : nat) (l : list ascii) {struct fuel} : option (json * list ascii) :=
  match fuel with
  | O => None
  | S f =>
    match skip_ws l with
    | [] => None
    | c :: r =>
      if Ascii.eqb c "["%char then
        match skip_ws r with
        | c' :: r' => if Ascii.eqb c' "]"%char then Some (JArr [], r') else elements f r []
        | [] => None
        end
      else if Ascii.eqb c "{"%char then
        match skip_ws r with
        | c' :: r' => if Ascii.eqb c' "}"%char then Some (JObj [], r') else members f r []
        | [] => None
        end
      else if Ascii.eqb c quote then
        match string_body r with
        | Some (s, r') => Some (JStr s, r')
        | None => None
        end
      else literal (c :: r)
    end
  end
with elements (fuel : nat) (l : list ascii) (acc : list json) {struct fuel}
    : option (json * list ascii) :=
  match fuel with
  | O => None
  | S f =>
    match value f l with
    | None => None
    | Some (v, r) =>
      match skip_ws r with
      | c :: r' =>
          if Ascii.eqb c ","%char then elements f r' (acc ++ [v])
          else if Ascii.eqb c "]"%char then Some (JArr (acc ++ [v]), r')
          else None
      | [] => None
      end
    end
  end
with members (fuel : nat) (l : list ascii) (acc : list (list N * json)) {struct fuel}
    : option (json * list ascii) :=
  match fuel with
  | O => None
  | S f =>
    match skip_ws l with
    | c :: r =>
      if Ascii.eqb c quote then
        match string_body r with
        | None => None
        | Some (k, r1) =>
          match skip_ws r1 with
          | c1 :: r2 =>
            if Ascii.eqb c1 ":"%char then
              match value f r2 with
              | None => None
              | Some (v, r3) =>
                let acc' := acc ++ [(k, v)] in
                match skip_ws r3 with
                | c3 :: r4 =>
                    if Ascii.eqb c3 ","%char then members f r4 acc'
                    else if Ascii.eqb c3 "}"%char then Some (JObj acc', r4)
                    else None
                | [] => None
                end
              end
            else None
          | [] => None
          end
        end
      else None
    | [] => None
    end
  end.

(** [JSON.parse(text)]: one value, surrounded by white space only.  The
    fuel never cuts a parse short ([ParseFuel.JSON_parse_fuel]). *)
Definition JSON_parse (text : string) : option json :=
  let l := list_ascii_of_string text in
  match value (2 * length l) l with
  | Some (v, r) => match skip_ws r with [] => Some v | _ => None end
  | None => None
  end.

(** *** Reading a parsed value as [Note[]]

    The component hands [JSON.parse]'s result to [setNotes] without any
    check.  [as_notes] reads it as a collection of [Note] records exactly
    when the value [JSON.parse] builds is the array of objects the component
    itself builds for that collection: each object has the six keys of
    [Note] and no other, in the order [saveNote] creates them, string values
    within the model's alphabet and integer timestamps. *)

Fixpoint units_eqb (a b : list N) : bool :=
  match a, b with
  | [], [] => true
  | x :: a', y :: b' => N.eqb x y && units_eqb a' b'
  | _, _ => false
  end.

Definition key_is (k : list N) (name : string) : bool := units_eqb k (units_of name).

Definition as_string (v : json) : option string :=
  match v with
  | JStr u =>
      if forallb (fun n => N.ltb n 256) u
      then Some (string_of_list_ascii (map ascii_of_N u)) else None
  | _ => None
  end.

(** A number whose decimal denotes an integer [x] of [Z].  [JSON.parse]
    yields the double nearest to the decimal, which is [x] itself when
    [|x| <= 2^53]; the timestamps of the component are [Date.now()] values,
    integers below 8.64e15 < 2^53 in magnitude.  Negative zero is not an
    integer of [Z] and is refused. *)
Definition as_int (v : json) : option Z :=
  match v with
  | JNum neg m e =>
      if neg && N.eqb m 0 then None
      else
        let z := if neg then Z.opp (Z.of_N m) else Z.of_N m in
        if Z.leb 0 e then Some (z * 10 ^ e)%Z
        else let d := (10 ^ (- e))%Z in
             if Z.eqb (Z.rem z d) 0 then Some (Z.quot z d) else None
  | _ => None
  end.

Fixpoint map_option {A B} (f : A -> option B) (l : list A) : option (list B) :=
  match l with
  | [] => Some []
  | x :: l' =>
      match f x, map_option f l' with
      | Some y, Some ys => Some (y :: ys)
      | _, _ => None
      end
  end.

Definition as_tags (v : json) : option (list string) :=
  match v with JArr vs => map_option as_string vs | _ => None end.

Definition as_note (v : json) : option Note :=
  match v with
  | JObj [(k1, v1); (k2, v2); (k3, v3); (k4, v4); (k5, v5); (k6, v6)] =>
      if key_is k1 "id" && key_is k2 "title" && key_is k3 "content" &&
         key_is k4 "tags" && key_is k5 "createdAt" && key_is k6 "updatedAt"
      then
        match as_string v1, as_string v2, as_string v3, as_tags v4, as_int v5, as_int v6 with
        | Some i, Some t, Some c, Some g, Some ca, Some ua => Some (mkNote i t c g ca ua)
        | _, _, _, _, _, _ => None
        end
      else None
  | _ => None
  end.

Definition as_notes (v : json) : option (list Note) :=
  match v with JArr vs => map_option as_note vs | _ => None end.

End JSON.

Import JSON.

(* ------------------------------------------------------------------ *)
(** ** The component state and its handlers *)

(** The [useState] cells of [NotesApp] (the buffer cells [title] and
    [content] are named [editTitle] and [editContent] here, apart from the
    fields of [Note]), and the slot [localStorage.getItem('notes')]. *)
Record App := mkApp {
  notes : list Note;
  isEditing : bool;
  currentNote : option Note;
  searchQuery : string;
  selectedTag : option string;
  editTitle : string;
  editContent : string;
  tagInput : string;
  currentTags : list string;
  storage : option string
}.

(** The effect of lines 33-37, run after a render in which [notes] is a new
    array: the collection is written to the slot unless it is empty. *)
Definition persist (notes : list Note) (slot : option string) : option string :=
  if Nat.ltb 0 (length notes) then Some (JSON_stringify notes) else slot.

(** [setNotes(ns)] followed by the persistence effect. *)
Definition setNotes (ns : list Note) (st : App) : App :=
  mkApp ns (isEditing st) (currentNote st) (searchQuery st) (selectedTag st)
        (editTitle st) (editContent st) (tagInput st) (currentTags st)
        (persist ns (storage st)).

Definition startNewNote (st : App) : App :=
  mkApp (notes st) true None (searchQuery st) (selectedTag st) "" "" "" [] (storage st).

Definition editNote (note : Note) (st : App) : App :=
  mkApp (notes st) true (Some note) (searchQuery st) (selectedTag st)
        (title note) (content note) "" (tags note) (storage st).

Definition cancelEdit (st : App) : App :=
  mkApp (notes st) false None (searchQuery st) (selectedTag st) "" "" "" [] (storage st).

(** [onChange] of the tag input. *)
Definition setTagInput (s : string) (st : App) : App :=
  mkApp (notes st) (isEditing st) (currentNote st) (searchQuery st) (selectedTag st)
        (editTitle st) (editContent st) s (currentTags st) (storage st).

(** The note [saveNote] writes over [n] when [n.id === currentNote.id]. *)
Definition updated (st : App) (now : Z) (n : Note) : Note :=
  mkNote (id n) (editTitle st) (editContent st) (currentTags st) (createdAt n) now.

(** [saveNote], lines 76-100; [now] is [Date.now()] and [uuid] the value
    of [crypto.randomUUID()]. *)
Definition saveNote (now : Z) (uuid : string) (st : App) : App :=
  if negb (truthy (trim (editTitle st))) && negb (truthy (trim (editContent st)))
  then st
  else
    let ns :=
      match currentNote st with
      | Some cn =>
          map (fun n => if String.eqb (id n) (id cn) then updated st now n else n) (notes st)
      | None =>
          mkNote uuid (editTitle st) (editContent st) (currentTags st) now now :: notes st
      end in
    cancelEdit (setNotes ns st).

(** [deleteNote], lines 102-106; [confirmed] is the answer to [confirm]. *)
Definition deleteNote (confirmed : bool) (x : string) (st : App) : App :=
  if confirmed
  then setNotes (filter (fun n => negb (String.eqb (id n) x)) (notes st)) st
  else st.

(** [addTag], lines 117-123. *)
Definition addTag (st : App) : App :=
  let tag := toLowerCase (trim (tagInput st)) in
  if truthy tag && negb (existsb (String.eqb tag) (currentTags st))
  then mkApp (notes st) (isEditing st) (currentNote st) (searchQuery st) (selectedTag st)
             (editTitle st) (editContent st) "" (currentTags st ++ [tag]) (storage st)
  else st.

(** The outcome of the mount effect, lines 26-31. *)
Inductive Mounted :=
| KeepEmpty                   (* [if (stored)] fails: [notes] stays [[]] *)
| Loaded (ns : list Note)     (* [setNotes(JSON.parse(stored))]: the value is
                                 exactly the Note[] the component builds *)
| LoadedUntyped (v : json)    (* the same with any other value, unchecked *)
| ThrowsSyntaxError.          (* [JSON.parse] throws out of the effect *)

Definition load (stored : option string) : Mounted :=
  match stored with
  | None => KeepEmpty
  | Some s =>
      if truthy s then
        match JSON_parse s with
        | None => ThrowsSyntaxError
        | Some v =>
            match as_notes v with
            | Some ns => Loaded ns
            | None => LoadedUntyped v
            end
        end
      else KeepEmpty
  end.



(** The state after mounting: empty collection and buffers. *)
Definition initial (slot : option string) : App :=
  mkApp [] false None "" None "" "" "" [] slot.

(** A run of confirmed deletions. *)
Fixpoint deleteAll (xs : list string) (st : App) : App :=
  match xs with
  | [] => st
  | x :: xs' => deleteAll xs' (deleteNote true x st)
  end.

(** [removeTag], lines 125-127. *)
Definition removeTag (tagToRemove : string) (st : App) : App :=
  mkApp (notes st) (isEditing st) (currentNote st) (searchQuery st) (selectedTag st)
        (editTitle st) (editContent st) (tagInput st)
        (filter (fun t => negb (String.eqb t tagToRemove)) (currentTags st)) (storage st).

(** The [onChange] handlers of the title, content and search inputs and the
    tag filter buttons. *)
Definition setTitle (s : string) (st : App) : App :=
  mkApp (notes st) (isEditing st) (currentNote st) (searchQuery st) (selectedTag st)
        s (editContent st) (tagInput st) (currentTags st) (storage st).

Definition setContent (s : string) (st : App) : App :=
  mkApp (notes st) (isEditing st) (currentNote st) (searchQuery st) (selectedTag st)
        (editTitle st) s (tagInput st) (currentTags st) (storage st).

Definition setSearchQuery (s : string) (st : App) : App :=
  mkApp (notes st) (isEditing st) (currentNote st) s (selectedTag st)
        (editTitle st) (editContent st) (tagInput st) (currentTags st) (storage st).

Definition setSelectedTag (t : option string) (st : App) : App :=
  mkApp (notes st) (isEditing st) (currentNote st) (searchQuery st) t
        (editTitle st) (editContent st) (tagInput st) (currentTags st) (storage st).

(** One user event and the renders and effects it causes.  A note is
    opened for editing by clicking its card in the visible list. *)
Inductive step : App -> App -> Prop :=
| step_startNewNote st : step st (startNewNote st)
| step_editNote st n :
    In n (filteredNotes (notes st) (searchQuery st) (selectedTag st)) ->
    step st (editNote n st)
| step_cancelEdit st : step st (cancelEdit st)
| step_setTitle st s : step st (setTitle s st)
| step_setContent st s : step st (setContent s st)
| step_setTagInput st s : step st (setTagInput s st)
| step_addTag st : step st (addTag st)
| step_removeTag st t : step st (removeTag t st)
| step_saveNote st now uuid : step st (saveNote now uuid st)
| step_deleteNote st confirmed x : step st (deleteNote confirmed x st)
| step_setSearchQuery st s : step st (setSearchQuery s st)
| step_setSelectedTag st t : step st (setSelectedTag t st).

(** A tag list as the spec describes it: lowercase, without duplicates. *)
Definition tags_ok (l : list string) : Prop :=
  (forall t, In t l -> toLowerCase t = t) /\ NoDup l.

Definition app_ok (st : App) : Prop :=
  (forall n, In n (notes st) -> tags_ok (tags n)) /\ tags_ok (currentTags st).

(* ------------------------------------------------------------------ *)
(** ** The tag list of the filter bar: [allTags] (lines 39-43) *)

(** [tagSet.add(tag)]: a [Set] keeps its elements once, in the order of
    their first insertion, which is the order [Array.from] lists them in. *)
Definition set_add (s : list string) (tag : string) : list string :=
  if existsb (String.eqb tag) s then s else s ++ [tag].

(** [Array.prototype.sort] without a comparator, on strings: ascending
    order of UTF-16 code units ([String.compare] here), stable, as a stable
    insertion sort. *)
Fixpoint insert_str (x : string) (l : list string) : list string :=
  match l with
  | [] => [x]
  | y :: l' => if String.leb x y then x :: y :: l' else y :: insert_str x l'
  end.

Fixpoint sort_str (l : list string) : list string :=
  match l with
  | [] => []
  | x :: l' => insert_str x (sort_str l')
  end.

Definition allTags (notes : list Note) : list string :=
  sort_str (fold_left (fun tagSet note => fold_left set_add (tags note) tagSet) notes []).

(* ------------------------------------------------------------------ *)
(** ** The remaining event handlers *)

(** [handleTagInputKeyDown], lines 129-134: the state after the event and
    whether [e.preventDefault()] was called. *)
Definition handleTagInputKeyDown (key : string) (st : App) : App * bool :=
  if String.eqb key "Enter" then (addTag st, true) else (st, false).

(** The buttons of the filter bar, lines 219-233: "All" clears the tag
    filter; a tag button selects its tag, or clears the filter when its tag
    is the selected one. *)
Definition onFilterAll (st : App) : App := setSelectedTag None st.

Definition is_selected (selectedTag : option string) (tag : string) : bool :=
  match selectedTag with
  | Some t => String.eqb t tag
  | None => false
  end.

Definition onFilterTag (tag : string) (st : App) : App :=
  setSelectedTag (if is_selected (selectedTag st) tag then None else Some tag) st.

(** The inputs and buttons of the editor view, lines 140-189. *)
Inductive EditorEvent :=
| TypeTitle (s : string)
| TypeContent (s : string)
| TypeTag (s : string)
| KeyDown (key : string)
| ClickAdd
| ClickRemove (tag : string).

Definition editor_event (e : EditorEvent) (st : App) : App :=
  match e with
  | TypeTitle s => setTitle s st
  | TypeContent s => setContent s st
  | TypeTag s => setTagInput s st
  | KeyDown key => fst (handleTagInputKeyDown key st)
  | ClickAdd => addTag st
  | ClickRemove tag => removeTag tag st
  end.

Definition editor_events (es : list EditorEvent) (st : App) : App :=
  fold_left (fun st e => editor_event e st) es st.

(* ------------------------------------------------------------------ *)
(** ** What the component renders (lines 136-286)

    The rendered tree, reduced to its data: texts, values of the inputs,
    which optional parts are present, which filter buttons carry the
    active class, and the keys of the lists.  The date of a card,
    [new Date(note.updatedAt).toLocaleDateString()], depends on the host's
    locale and is kept as the timestamp it is computed from. *)

Record Card := mkCard {
  card_key : string;                  (* key={note.id} *)
  card_title : string;                (* note.title || 'Untitled' *)
  card_preview : option string;       (* note.content && <p>...</p> *)
  card_tags : option (list string);   (* note.tags.length > 0 && ... *)
  card_date : Z                       (* note.updatedAt *)
}.

Inductive FilterButton :=
| AllButton (active : bool)                  (* selectedTag === null *)
| TagButton (tag : string) (active : bool).  (* selectedTag === tag *)

Inductive ListBody :=
| EmptyState (message : string) (createButton : bool)
| Cards (cards : list Card).

Inductive Page :=
| EditorPage (titleValue contentValue tagInputValue : string) (tagList : option (list string))
| ListPage (searchValue : string) (filterBar : option (list FilterButton)) (body : ListBody).

Definition card (note : Note) : Card :=
  mkCard (id note)
         (if truthy (title note) then title note else "Untitled")
         (if truthy (content note) then Some (content note) else None)
         (if Nat.ltb 0 (length (tags note)) then Some (tags note) else None)
         (updatedAt note).

(** JavaScript truthiness of [selectedTag]: not [null] and not [''] *)
Definition selected_truthy (selectedTag : option string) : bool :=
  match selectedTag with
  | Some t => truthy t
  | None => false
  end.

Definition filter_bar (st : App) : option (list FilterButton) :=
  let ts := allTags (notes st) in
  if Nat.ltb 0 (length ts) then
    Some (AllButton (match selectedTag st with None => true | Some _ => false end)
          :: map (fun tag => TagButton tag (is_selected (selectedTag st) tag)) ts)
  else None.

Definition list_body (st : App) : ListBody :=
  let fs := filteredNotes (notes st) (searchQuery st) (selectedTag st) in
  if Nat.eqb (length fs) 0 then
    EmptyState (if truthy (searchQuery st) || selected_truthy (selectedTag st)
                then "No notes found" else "No notes yet")
               (negb (truthy (searchQuery st)) && negb (selected_truthy (selectedTag st)))
  else Cards (map card fs).

Definition render (st : App) : Page :=
  if isEditing st then
    EditorPage (editTitle st) (editContent st) (tagInput st)
               (if Nat.ltb 0 (length (currentTags st)) then Some (currentTags st) else None)
  else ListPage (searchQuery st) (filter_bar st) (list_body st).

Definition button_active (b : FilterButton) : bool :=
  match b with
  | AllButton a => a
  | TagButton _ a => a
  end.

(* ------------------------------------------------------------------ *)
(** ** Runs of events *)

Definition steps : App -> App -> Prop := clos_refl_trans_1n App step.

(** The slot holds the serialization of the collection whenever the
    collection is not empty. *)
Definition storage_in_sync (st : App) : Prop :=
  notes st <> [] -> storage st = Some (JSON_stringify (notes st)).

(** A tag as [addTag] builds it: not empty, and without surrounding
    whitespace. *)
Definition tag_clean (t : string) : Prop := t <> "" /\ trim t = t.

Definition app_clean (st : App) : Prop :=
  (forall n t, In n (notes st) -> In t (tags n) -> tag_clean t) /\
  (forall t, In t (currentTags st) -> tag_clean t).

(* ================================================================== *)
(** * Properties *)

(** ** The visible list *)

Section SortFacts.

Variable cmp : Note -> Note -> Z.

Lemma insert_by_perm (x : Note) (l : list Note) :
  Permutation (insert_by cmp x l) (x :: l).
Proof.
  induction l as [|y l IH]; simpl; [reflexivity|].
  destruct (Z.leb (cmp x y) 0); [reflexivity|].
  rewrite IH. apply perm_swap.
Qed.

Lemma sort_by_perm (l : list Note) : Permutation (sort_by cmp l) l.
Proof.
  induction l as [|x l IH]; simpl; [reflexivity|].
  rewrite insert_by_perm. now apply perm_skip.
Qed.

End SortFacts.

(** The order of the visible list: non-increasing [updatedAt]. *)
Definition newer_first (a b : Note) : Prop := (updatedAt b <= updatedAt a)%Z.

Lemma insert_by_sorted (x : Note) (l : list Note) :
  Sorted newer_first l -> Sorted newer_first (insert_by byUpdatedDesc x l).
Proof.
  unfold newer_first, byUpdatedDesc.
  induction 1 as [|y l Hs IH Hhd]; simpl.
  - repeat constructor.
  - destruct (Z.leb_spec (updatedAt y - updatedAt x) 0) as [Hle|Hgt].
    + constructor; [constructor; assumption|constructor; lia].
    + constructor; [exact IH|].
      destruct l as [|z l]; simpl.
      * constructor; lia.
      * inversion Hhd; subst.
        destruct (Z.leb (updatedAt z - updatedAt x) 0); constructor; lia.
Qed.

Lemma sort_by_sorted (l : list Note) : Sorted newer_first (sort_by byUpdatedDesc l).
Proof.
  induction l as [|x l IH]; simpl; [constructor|].
  now apply insert_by_sorted.
Qed.

Lemma existsb_eqb_In (t : string) (l : list string) :
  existsb (String.eqb t) l = true <-> In t l.
Proof.
  rewrite existsb_exists. split.
  - intros [u [Hin Heq]]. apply String.eqb_eq in Heq. now subst.
  - intros Hin. exists t. split; [exact Hin|apply String.eqb_refl].
Qed.

Lemma matchesSearch_spec (q : string) (n : Note) :
  matchesSearch q n = true <->
  q = "" \/
  includes (toLowerCase (title n)) (toLowerCase q) = true \/
  includes (toLowerCase (content n)) (toLowerCase q) = true \/
  (exists tag, In tag (tags n) /\ includes (toLowerCase tag) (toLowerCase q) = true).
Proof.
  unfold matchesSearch. rewrite !orb_true_iff, String.eqb_eq, existsb_exists.
  tauto.
Qed.

Lemma matchesTag_spec (t : option string) (n : Note) :
  matchesTag t n = true <-> t = None \/ (exists tg, t = Some tg /\ In tg (tags n)).
Proof.
  unfold matchesTag. destruct t as [tg|].
  - rewrite existsb_eqb_In. split.
    + intros H. right. now exists tg.
    + intros [H|[u [Hu H]]]; [discriminate|]. now injection Hu as ->.
  - split; [now left|reflexivity].
Qed.

(** C2: a note is visible iff it is in the collection, matches the search
    text (empty, or contained case-insensitively in its title, content or
    one of its tags) and matches the tag filter (unset, or one of its tags). *)
Theorem filteredNotes_In (notes : list Note) (q : string) (t : option string) (n : Note) :
  In n (filteredNotes notes q t) <->
  In n notes /\
  (q = "" \/
   includes (toLowerCase (title n)) (toLowerCase q) = true \/
   includes (toLowerCase (content n)) (toLowerCase q) = true \/
   (exists tag, In tag (tags n) /\ includes (toLowerCase tag) (toLowerCase q) = true)) /\
  (t = None \/ (exists tg, t = Some tg /\ In tg (tags n))).
Proof.
  unfold filteredNotes.
  split.
  - intros H. apply (Permutation_in _ (sort_by_perm _ _)) in H.
    apply filter_In in H as [Hin Hm]. apply andb_true_iff in Hm as [Hs Ht].
    rewrite matchesSearch_spec in Hs. rewrite matchesTag_spec in Ht. tauto.
  - intros [Hin [Hs Ht]].
    apply (Permutation_in _ (Permutation_sym (sort_by_perm _ _))).
    apply filter_In. split; [exact Hin|].
    apply andb_true_iff. rewrite matchesSearch_spec, matchesTag_spec. tauto.
Qed.

(** The spec's example: "wor" matches "Work plan" but not "Home". *)
Example filteredNotes_wor :
  filteredNotes [mkNote "a" "Work plan" "" [] 0 0; mkNote "b" "Home" "" [] 0 0] "wor" None
  = [mkNote "a" "Work plan" "" [] 0 0].
Proof. reflexivity. Qed.

(** C3: the visible list is ordered by non-increasing [updatedAt]; with an
    empty query and no tag filter it is a reordering of the whole
    collection. *)
Theorem filteredNotes_sorted (notes : list Note) (q : string) (t : option string) :
  Sorted newer_first (filteredNotes notes q t) /\
  Permutation (filteredNotes notes "" None) notes.
Proof.
  split.
  - apply sort_by_sorted.
  - unfold filteredNotes.
    rewrite sort_by_perm.
    rewrite (filter_ext_in _ (fun _ => true)); [rewrite filter_true; reflexivity|].
    intros n _. reflexivity.
Qed.

(** The spec's example: A (updatedAt 100), B (updatedAt 200) show as [B; A]. *)
Example filteredNotes_example_BA :
  filteredNotes [mkNote "A" "" "" ["x"] 0 100; mkNote "B" "" "" ["y"] 0 200] "" None
  = [mkNote "B" "" "" ["y"] 0 200; mkNote "A" "" "" ["x"] 0 100].
Proof. reflexivity. Qed.

(** ** Saving, deleting and persisting *)

Definition save_guard (st : App) : Prop :=
  trim (editTitle st) <> "" \/ trim (editContent st) <> "".

Lemma saveNote_guard (now : Z) (uuid : string) (st : App) :
  save_guard st ->
  saveNote now uuid st =
  cancelEdit (setNotes
    (match currentNote st with
     | Some cn =>
         map (fun n => if String.eqb (id n) (id cn) then updated st now n else n) (notes st)
     | None =>
         mkNote uuid (editTitle st) (editContent st) (currentTags st) now now :: notes st
     end) st).
Proof.
  unfold save_guard, saveNote, truthy. intros H.
  destruct (String.eqb_spec (trim (editTitle st)) "") as [E1|E1];
  destruct (String.eqb_spec (trim (editContent st)) "") as [E2|E2];
  simpl; try reflexivity.
  exfalso. tauto.
Qed.

(** C4: saving with an empty title and an empty content changes nothing:
    neither the collection nor the storage slot (nor any other state). *)
Theorem saveNote_empty_noop (now : Z) (uuid : string) (st : App) :
  editTitle st = "" -> editContent st = "" ->
  saveNote now uuid st = st /\ notes (saveNote now uuid st) = notes st /\
  storage (saveNote now uuid st) = storage st.
Proof.
  intros Ht Hc. unfold saveNote. rewrite Ht, Hc. simpl. auto.
Qed.

Lemma saveNote_empty_noop_witness :
  let st := mkApp [mkNote "a" "t" "c" [] 1 1] true None "" None "" "" "" [] None in
  (editTitle st = "" /\ editContent st = "") /\
  (saveNote 5 "u" st = st /\ notes (saveNote 5 "u" st) = notes st /\
   storage (saveNote 5 "u" st) = storage st).
Proof.
  intros st. split; [split; reflexivity|].
  apply saveNote_empty_noop; reflexivity.
Defined.

Lemma map_nth_error_eq {A B} (f : A -> B) (l : list A) (i : nat) (x : A) :
  nth_error l i = Some x -> nth_error (map f l) i = Some (f x).
Proof. intros H. now rewrite nth_error_map, H. Qed.

Lemma map_id_notin (f : Note -> Note) (x : string) (l : list Note) :
  ~ In x (map id l) ->
  map (fun n => if String.eqb (id n) x then f n else n) l = l.
Proof.
  induction l as [|n l IH]; simpl; [reflexivity|].
  intros Hn. destruct (String.eqb_spec (id n) x) as [E|E].
  - exfalso. apply Hn. now left.
  - f_equal. apply IH. tauto.
Qed.

(** C6: saving an edited note rewrites title, content, tags and [updatedAt]
    of every note with its id, keeps their [id] and [createdAt], keeps every
    other note, the order and the length; with an id absent from the
    collection the collection is unchanged. *)
Theorem saveNote_update (now : Z) (uuid : string) (st : App) (cn : Note) :
  currentNote st = Some cn -> save_guard st ->
  let ns' := notes (saveNote now uuid st) in
  length ns' = length (notes st) /\
  (forall i n, nth_error (notes st) i = Some n ->
     nth_error ns' i =
       Some (if String.eqb (id n) (id cn)
             then mkNote (id n) (editTitle st) (editContent st) (currentTags st) (createdAt n) now
             else n)) /\
  (~ In (id cn) (map id (notes st)) -> ns' = notes st).
Proof.
  intros Hcn Hg ns'. subst ns'.
  rewrite (saveNote_guard now uuid st Hg), Hcn. simpl.
  split; [|split].
  - apply length_map.
  - intros i n Hi. now apply map_nth_error_eq with (f := fun n => if String.eqb (id n) (id cn) then updated st now n else n).
  - apply map_id_notin.
Qed.

Lemma saveNote_update_witness :
  let cn := mkNote "a" "old" "" [] 1 1 in
  let st := mkApp [mkNote "b" "x" "" [] 2 2; cn] true (Some cn) "" None "new" "" "" ["t"] None in
  (currentNote st = Some cn /\ save_guard st) /\
  (let ns' := notes (saveNote 9 "u" st) in
   length ns' = length (notes st) /\
   (forall i n, nth_error (notes st) i = Some n ->
      nth_error ns' i =
        Some (if String.eqb (id n) (id cn)
              then mkNote (id n) (editTitle st) (editContent st) (currentTags st) (createdAt n) 9
              else n)) /\
   (~ In (id cn) (map id (notes st)) -> ns' = notes st)).
Proof.
  intros cn st. split.
  - split; [reflexivity|]. left. simpl. discriminate.
  - apply saveNote_update; [reflexivity|]. left. simpl. discriminate.
Defined.

(** C7: saving a new note puts in front of the collection a note with the
    generated id and [createdAt = updatedAt = now], the other notes
    following unchanged and in order; a generated id absent from the
    collection keeps the ids pairwise distinct. *)
Theorem saveNote_create (now : Z) (uuid : string) (st : App) :
  currentNote st = None -> save_guard st ->
  notes (saveNote now uuid st) =
    mkNote uuid (editTitle st) (editContent st) (currentTags st) now now :: notes st /\
  (NoDup (map id (notes st)) -> ~ In uuid (map id (notes st)) ->
   NoDup (map id (notes (saveNote now uuid st)))).
Proof.
  intros Hcn Hg.
  assert (E : notes (saveNote now uuid st) =
    mkNote uuid (editTitle st) (editContent st) (currentTags st) now now :: notes st).
  { rewrite (saveNote_guard now uuid st Hg), Hcn. reflexivity. }
  split; [exact E|].
  intros Hnd Hfresh. rewrite E. simpl. now constructor.
Qed.

Lemma saveNote_create_witness :
  let st := mkApp [mkNote "a" "x" "" [] 2 2] true None "" None "hello" "" "" [] None in
  (currentNote st = None /\ save_guard st) /\
  (notes (saveNote 7 "u" st) =
     mkNote "u" (editTitle st) (editContent st) (currentTags st) 7 7 :: notes st /\
   (NoDup (map id (notes st)) -> ~ In "u" (map id (notes st)) ->
    NoDup (map id (notes (saveNote 7 "u" st))))).
Proof.
  intros st. split.
  - split; [reflexivity|]. left. simpl. discriminate.
  - apply saveNote_create; [reflexivity|]. left. simpl. discriminate.
Defined.

Lemma filter_id_notin (x : string) (l : list Note) :
  ~ In x (map id l) -> filter (fun n => negb (String.eqb (id n) x)) l = l.
Proof.
  induction l as [|n l IH]; simpl; [reflexivity|].
  intros Hn. destruct (String.eqb_spec (id n) x) as [E|E]; simpl.
  - exfalso. apply Hn. now left.
  - f_equal. apply IH. tauto.
Qed.

Lemma filter_id_unique (x : string) (l : list Note) :
  NoDup (map id l) -> In x (map id l) ->
  exists l1 n l2, l = l1 ++ n :: l2 /\ id n = x /\
    filter (fun n => negb (String.eqb (id n) x)) l = l1 ++ l2.
Proof.
  induction l as [|m l IH]; simpl; [tauto|].
  intros Hnd Hin. inversion Hnd as [|? ? Hm Hnd']; subst.
  destruct (String.eqb_spec (id m) x) as [E|E]; simpl.
  - exists [], m, l. subst x. split; [reflexivity|split; [reflexivity|]].
    now apply filter_id_notin.
  - destruct Hin as [Hin|Hin]; [contradiction|].
    destruct (IH Hnd' Hin) as [l1 [n [l2 [-> [Hid Hf]]]]].
    exists (m :: l1), n, l2. simpl. rewrite Hf. auto.
Qed.

(** C8: deleting an id absent from the collection leaves it as it is;
    deleting an id present (ids being distinct) drops exactly the note with
    that id and keeps the others in their order. *)
Theorem deleteNote_remove (x : string) (st : App) :
  (~ In x (map id (notes st)) -> notes (deleteNote true x st) = notes st) /\
  (NoDup (map id (notes st)) -> In x (map id (notes st)) ->
   exists l1 n l2, notes st = l1 ++ n :: l2 /\ id n = x /\
     notes (deleteNote true x st) = l1 ++ l2).
Proof.
  unfold deleteNote. simpl. split.
  - apply filter_id_notin.
  - apply filter_id_unique.
Qed.

Lemma deleteNote_remove_witness :
  let st := mkApp [mkNote "a" "" "" [] 1 1; mkNote "b" "" "" [] 2 2] false None "" None
                  "" "" "" [] None in
  ((~ In "c" (map id (notes st)) /\ NoDup (map id (notes st)) /\ In "b" (map id (notes st))) /\
   (notes (deleteNote true "c" st) = notes st)) /\
  (exists l1 n l2, notes st = l1 ++ n :: l2 /\ id n = "b" /\
     notes (deleteNote true "b" st) = l1 ++ l2).
Proof.
  intros st.
  assert (Hnd : NoDup (map id (notes st))).
  { simpl. constructor; [simpl; intros [H|H]; [discriminate|exact H]|].
    constructor; [simpl; tauto|constructor]. }
  assert (Hc : ~ In "c" (map id (notes st))).
  { simpl. intros [H|[H|H]]; [discriminate|discriminate|exact H]. }
  assert (Hb : In "b" (map id (notes st))) by (simpl; auto).
  split; [split; [auto|]|].
  - apply (proj1 (deleteNote_remove "c" st)). exact Hc.
  - apply (proj2 (deleteNote_remove "b" st)); assumption.
Defined.

(** The storage discipline of the persistence effect, between the state
    before a handler and the state after it. *)
Definition persisted_after (st st' : App) : Prop :=
  (notes st' <> [] -> storage st' = Some (JSON_stringify (notes st'))) /\
  (notes st' = [] -> storage st' = storage st).

Lemma setNotes_persisted (ns : list Note) (st : App) :
  persisted_after st (setNotes ns st).
Proof.
  unfold persisted_after, setNotes, persist. simpl.
  destruct ns as [|n ns]; simpl; split; intros H; congruence.
Qed.

(** C5: after each mutating handler (saving a new or an edited note,
    deleting a note) the slot holds the serialized collection if it is
    non-empty, and is left as it was if the collection is empty. *)
Theorem mutations_persist (now : Z) (uuid x : string) (st : App) :
  (save_guard st -> persisted_after st (saveNote now uuid st)) /\
  persisted_after st (deleteNote true x st).
Proof.
  split.
  - intros Hg. rewrite (saveNote_guard now uuid st Hg).
    apply setNotes_persisted.
  - apply setNotes_persisted.
Qed.

Lemma mutations_persist_witness :
  let st := mkApp [mkNote "a" "" "" [] 1 1] true None "" None "t" "" "" [] None in
  save_guard st /\
  (persisted_after st (saveNote 3 "u" st) /\ persisted_after st (deleteNote true "a" st)).
Proof.
  intros st. split; [left; simpl; discriminate|].
  split; [apply (proj1 (mutations_persist 3 "u" "a" st)); left; simpl; discriminate|].
  apply (proj2 (mutations_persist 3 "u" "a" st)).
Defined.

(** ** Tags *)

Lemma lower_char_idem (c : ascii) : lower_char (lower_char c) = lower_char c.
Proof.
  destruct c as [b0 b1 b2 b3 b4 b5 b6 b7].
  destruct b0, b1, b2, b3, b4, b5, b6, b7; reflexivity.
Qed.

Lemma toLowerCase_idem (s : string) : toLowerCase (toLowerCase s) = toLowerCase s.
Proof.
  induction s as [|c s IH]; simpl; [reflexivity|]. now rewrite lower_char_idem, IH.
Qed.

Lemma tags_ok_nil : tags_ok [].
Proof. split; [intros t []|constructor]. Qed.

Lemma tags_ok_snoc (l : list string) (t : string) :
  tags_ok l -> toLowerCase t = t -> ~ In t l -> tags_ok (l ++ [t]).
Proof.
  intros [Hl Hnd] Ht Hn. split.
  - intros u Hu. apply in_app_or in Hu as [Hu|[<-|[]]]; auto.
  - apply (Permutation_NoDup (Permutation_cons_append l t)). now constructor.
Qed.

Lemma tags_ok_filter (f : string -> bool) (l : list string) :
  tags_ok l -> tags_ok (filter f l).
Proof.
  intros [Hl Hnd]. split.
  - intros u Hu. apply filter_In in Hu. apply Hl, Hu.
  - now apply NoDup_filter.
Qed.

Lemma filteredNotes_incl (notes : list Note) (q : string) (t : option string) (n : Note) :
  In n (filteredNotes notes q t) -> In n notes.
Proof.
  unfold filteredNotes. intros H.
  apply (Permutation_in _ (sort_by_perm _ _)) in H.
  now apply filter_In in H.
Qed.

Lemma addTag_notes (st : App) : notes (addTag st) = notes st.
Proof. unfold addTag. destruct (_ && _); reflexivity. Qed.

Lemma addTag_setTagInput (s : string) (st : App) :
  truthy (toLowerCase (trim s)) = true ->
  currentTags (addTag (setTagInput s st)) =
  if existsb (String.eqb (toLowerCase (trim s))) (currentTags st) then currentTags st
  else currentTags st ++ [toLowerCase (trim s)].
Proof.
  intros H. unfold addTag. cbn [tagInput currentTags setTagInput]. rewrite H.
  destruct (existsb _ _); reflexivity.
Qed.

Lemma addTag_ok (st : App) : tags_ok (currentTags st) -> tags_ok (currentTags (addTag st)).
Proof.
  unfold addTag. intros Hok.
  destruct (truthy (toLowerCase (trim (tagInput st)))) eqn:Ht; simpl; [|exact Hok].
  destruct (existsb (String.eqb (toLowerCase (trim (tagInput st)))) (currentTags st)) eqn:He;
    simpl; [exact Hok|].
  apply tags_ok_snoc; [exact Hok|apply toLowerCase_idem|].
  intros Hin. apply existsb_eqb_In in Hin. congruence.
Qed.

Lemma saveNote_ok (now : Z) (uuid : string) (st : App) : app_ok st -> app_ok (saveNote now uuid st).
Proof.
  intros [Hn Hc]. unfold saveNote.
  destruct (negb (truthy (trim (editTitle st))) && negb (truthy (trim (editContent st))));
    [split; assumption|].
  split; [|exact tags_ok_nil].
  destruct (currentNote st) as [cn|]; simpl.
  - intros n Hin. apply in_map_iff in Hin as [m [<- Hm]].
    destruct (String.eqb (id m) (id cn)); [exact Hc|now apply Hn].
  - intros n [<-|Hin]; [exact Hc|now apply Hn].
Qed.

(** C9: adding a tag lowercases it and skips it when present.  Hence every
    reachable state keeps all tag lists (of the notes and of the edit
    buffer) lowercase and duplicate-free, so no tag list holds two tags
    equal up to case; adding "Work" then "work" adds the one tag "work". *)
Theorem tags_never_case_duplicated :
  (forall st st', app_ok st -> step st st' -> app_ok st') /\
  (forall st, app_ok st -> forall n t1 t2, In n (notes st) -> In t1 (tags n) -> In t2 (tags n) ->
     toLowerCase t1 = toLowerCase t2 -> t1 = t2) /\
  (forall st, ~ In "work" (currentTags st) ->
     currentTags (addTag (setTagInput "work" (addTag (setTagInput "Work" st)))) =
     currentTags st ++ ["work"]).
Proof.
  split; [|split].
  - intros st st' [Hn Hc] Hstep.
    destruct Hstep as [st|st n Hin|st|st s|st s|st s|st|st t|st now uuid|st b x|st s|st t];
      try (split; assumption).
    + split; [exact Hn|exact tags_ok_nil].
    + split; [exact Hn|]. apply Hn. eapply filteredNotes_incl; exact Hin.
    + split; [exact Hn|exact tags_ok_nil].
    + split; [rewrite addTag_notes; exact Hn|]. now apply addTag_ok.
    + split; [exact Hn|]. now apply tags_ok_filter.
    + now apply saveNote_ok.
    + unfold deleteNote. destruct b; [|split; assumption].
      split; [|exact Hc]. simpl. intros n Hin. apply filter_In in Hin. apply Hn, Hin.
  - intros st [Hn _] n t1 t2 Hin H1 H2 E.
    destruct (Hn n Hin) as [Hl _].
    now rewrite <- (Hl t1 H1), <- (Hl t2 H2).
  - intros st Hw.
    rewrite (addTag_setTagInput "work") by reflexivity.
    rewrite (addTag_setTagInput "Work") by reflexivity.
    replace (toLowerCase (trim "Work")) with "work" by reflexivity.
    replace (toLowerCase (trim "work")) with "work" by reflexivity.
    destruct (existsb (String.eqb "work") (currentTags st)) eqn:He.
    + exfalso. apply Hw. now apply existsb_eqb_In.
    + rewrite existsb_app. cbn [existsb]. now rewrite String.eqb_refl, orb_true_r.
Qed.

Lemma tags_never_case_duplicated_witness :
  let st := mkApp [mkNote "a" "" "" ["x"] 1 1] true None "" None "" "" "Work" [] None in
  app_ok st /\ app_ok (addTag st) /\
  currentTags (addTag (setTagInput "work" (addTag (setTagInput "Work" st)))) = ["work"].
Proof.
  intros st.
  assert (Hok : app_ok st).
  { split; [|exact tags_ok_nil].
    intros n [<-|[]]. split; [intros t [<-|[]]; reflexivity|repeat constructor; simpl; tauto]. }
  split; [exact Hok|split].
  - apply (proj1 tags_never_case_duplicated st); [exact Hok|constructor].
  - apply (proj2 (proj2 tags_never_case_duplicated) st). simpl. tauto.
Defined.

(** ** The JSON round trip of a collection *)

Module RoundTrip.

(** Texts that may follow a value inside the serialized collection. *)
Definition rest_ok (rest : list ascii) : Prop :=
  match rest with
  | [] => True
  | c :: _ => c = ","%char \/ c = "]"%char \/ c = "}"%char
  end.

Lemma skip_ws_rest (rest : list ascii) : rest_ok rest -> skip_ws rest = rest.
Proof.
  destruct rest as [|c r]; [reflexivity|]. intros [ -> | [ -> | -> ] ]; reflexivity.
Qed.

(** *** Numbers *)

Definition no_digit_head (rest : list ascii) : Prop :=
  match rest with c :: _ => digit c = None | [] => True end.

Lemma rest_ok_no_digit (rest : list ascii) : rest_ok rest -> no_digit_head rest.
Proof.
  destruct rest as [|c r]; [intros _; exact I|]. intros [ -> | [ -> | -> ] ]; reflexivity.
Qed.

Lemma digits_uint (u : Decimal.uint) (rest : list ascii) :
  no_digit_head rest -> digits (uint_chars u ++ rest) = (u, rest).
Proof.
  intros H. induction u; simpl; try (rewrite IHu; reflexivity).
  destruct rest as [|c r]; simpl; [reflexivity|]. simpl in H. now rewrite H.
Qed.

Lemma to_uint_unorm (n : N) : N.to_uint n = Decimal.unorm (N.to_uint n).
Proof.
  rewrite <- DecimalN.Unsigned.to_of, DecimalN.Unsigned.of_to. reflexivity.
Qed.

Lemma unorm_not_nil (u : Decimal.uint) : u = Decimal.unorm u -> u <> Decimal.Nil.
Proof.
  intros Hu ->. discriminate Hu.
Qed.

Lemma int_part_uint (u : Decimal.uint) (rest : list ascii) :
  u = Decimal.unorm u -> no_digit_head rest ->
  int_part (uint_chars u ++ rest) = Some (u, rest).
Proof.
  intros Hu Hr.
  destruct u as [|u|u|u|u|u|u|u|u|u|u];
    try (simpl; rewrite (digits_uint u rest Hr); reflexivity).
  - discriminate Hu.
  - unfold Decimal.unorm in Hu. cbn [Decimal.nzhead] in Hu.
    pose proof (DecimalFacts.nzhead_nonzero u u) as Hnz.
    destruct (Decimal.nzhead u) as [|d|d|d|d|d|d|d|d|d|d] eqn:E; try discriminate Hu.
    + injection Hu as ->. reflexivity.
    + injection Hu as ->. contradiction.
Qed.

Lemma frac_part_rest (rest : list ascii) :
  rest_ok rest -> frac_part rest = Some (Decimal.Nil, rest).
Proof.
  destruct rest as [|c r]; [reflexivity|]. intros [ -> | [ -> | -> ] ]; reflexivity.
Qed.

Lemma exp_part_rest (rest : list ascii) : rest_ok rest -> exp_part rest = Some (0%Z, rest).
Proof.
  destruct rest as [|c r]; [reflexivity|]. intros [ -> | [ -> | -> ] ]; reflexivity.
Qed.

Lemma minus_sign_uint (u : Decimal.uint) (rest : list ascii) :
  u <> Decimal.Nil -> minus_sign (uint_chars u ++ rest) = (false, uint_chars u ++ rest).
Proof.
  destruct u; [contradiction|..]; reflexivity.
Qed.

Lemma number_uint (neg : bool) (u : Decimal.uint) (rest : list ascii) :
  u = Decimal.unorm u -> rest_ok rest ->
  number ((if neg then ["-"%char] else []) ++ uint_chars u ++ rest) =
  Some (JNum neg (N.of_uint u) 0, rest).
Proof.
  intros Hu Hr. unfold number.
  assert (Hs : minus_sign ((if neg then ["-"%char] else []) ++ uint_chars u ++ rest) =
               (neg, uint_chars u ++ rest)).
  { destruct neg; [reflexivity|]. apply minus_sign_uint, unorm_not_nil, Hu. }
  rewrite Hs. cbv beta iota zeta.
  rewrite (int_part_uint u rest Hu (rest_ok_no_digit _ Hr)).
  cbv beta iota zeta. rewrite (frac_part_rest rest Hr).
  cbv beta iota zeta. rewrite (exp_part_rest rest Hr).
  cbv beta iota zeta. rewrite DecimalFacts.app_nil_r. reflexivity.
Qed.

Lemma number_chars_number (z : Z) (rest : list ascii) :
  rest_ok rest -> number (number_chars z ++ rest) = Some (JNum (Z.ltb z 0) (Z.abs_N z) 0, rest).
Proof.
  intros Hr. unfold number_chars. rewrite <- app_assoc.
  rewrite number_uint by (apply to_uint_unorm || exact Hr).
  now rewrite DecimalN.Unsigned.of_to.
Qed.

(** *** Strings *)

Lemma string_body_escape_char (c : ascii) (x : list ascii) :
  string_body (escape_char c ++ x) = cons_fst (N_of_ascii c) (string_body x).
Proof.
  destruct c as [b0 b1 b2 b3 b4 b5 b6 b7].
  destruct b0, b1, b2, b3, b4, b5, b6, b7; reflexivity.
Qed.

Lemma string_body_escape (s : list ascii) (rest : list ascii) :
  string_body (flat_map escape_char s ++ quote :: rest) = Some (map N_of_ascii s, rest).
Proof.
  induction s as [|c s IH]; [reflexivity|].
  cbn [flat_map]. rewrite <- app_assoc, string_body_escape_char, IH. reflexivity.
Qed.

(** *** Values *)

Definition head_ok (p : list ascii) : Prop :=
  match p with
  | c :: _ => json_ws c = false /\ c <> "]"%char /\ c <> "}"%char
  | [] => False
  end.

(** [p] is the text of [v]: followed by a separator, it parses back to [v]
    with fuel twice its length. *)
Definition Parses (p : list ascii) (v : json) : Prop :=
  head_ok p /\
  forall f rest, rest_ok rest -> 2 * length p <= f -> value f (p ++ rest) = Some (v, rest).

Lemma skip_ws_head (p rest : list ascii) : head_ok p -> skip_ws (p ++ rest) = p ++ rest.
Proof.
  destruct p as [|c p]; [intros []|]. intros [Hw _]. simpl. now rewrite Hw.
Qed.

Lemma value_quote (f : nat) (x : list ascii) :
  value (S f) (quote :: x) =
  match string_body x with
  | Some (s, r') => Some (JStr s, r')
  | None => None
  end.
Proof. reflexivity. Qed.

Lemma Parses_string (s : string) : Parses (quote_string s) (JStr (units_of s)).
Proof.
  split; [repeat split; discriminate|].
  intros f rest Hr Hf. unfold quote_string in *.
  destruct f as [|f]; [simpl in Hf; lia|].
  cbn [app]. rewrite <- app_assoc. cbn [app].
  rewrite value_quote, string_body_escape. reflexivity.
Qed.

Definition number_head (c : ascii) : Prop :=
  In c ["-"; "0"; "1"; "2"; "3"; "4"; "5"; "6"; "7"; "8"; "9"]%char.

Lemma value_number_head (f : nat) (c : ascii) (r : list ascii) :
  number_head c -> value (S f) (c :: r) = number (c :: r).
Proof.
  unfold number_head. intros H.
  repeat (destruct H as [<-|H]; [reflexivity|]). destruct H.
Qed.

Lemma number_chars_head (z : Z) :
  exists c r, number_chars z = c :: r /\ number_head c.
Proof.
  unfold number_chars, number_head.
  destruct (Z.ltb z 0); [eexists _, _; split; [reflexivity|simpl; tauto]|].
  pose proof (unorm_not_nil _ (to_uint_unorm (Z.abs_N z))) as Hn.
  destruct (N.to_uint (Z.abs_N z)); [contradiction|..];
    (eexists _, _; split; [reflexivity|simpl; tauto]).
Qed.

Lemma Parses_number (z : Z) : Parses (number_chars z) (JNum (Z.ltb z 0) (Z.abs_N z) 0).
Proof.
  destruct (number_chars_head z) as [c [r [Hz Hc]]].
  split.
  - rewrite Hz. unfold number_head in Hc. simpl in Hc.
    repeat (destruct Hc as [<-|Hc]; [repeat split; discriminate|]). destruct Hc.
  - intros f rest Hr Hf. rewrite Hz in Hf. destruct f as [|f]; [simpl in Hf; lia|].
    rewrite <- (number_chars_number z rest Hr), Hz.
    apply value_number_head, Hc.
Qed.

(** *** Arrays *)

Lemma elements_comma (f : nat) (l : list ascii) (acc : list json) (v : json) (r : list ascii) :
  value f l = Some (v, ","%char :: r) -> elements (S f) l acc = elements f r (acc ++ [v]).
Proof. intros H. cbn [elements]. rewrite H. reflexivity. Qed.

Lemma elements_close (f : nat) (l : list ascii) (acc : list json) (v : json) (r : list ascii) :
  value f l = Some (v, "]"%char :: r) -> elements (S f) l acc = Some (JArr (acc ++ [v]), r).
Proof. intros H. cbn [elements]. rewrite H. reflexivity. Qed.

Lemma elements_join (ps : list (list ascii)) (vs : list json) :
  Forall2 Parses ps vs -> ps <> [] ->
  forall f acc rest, rest_ok rest -> 2 * length (join ps ++ ["]"%char]) <= f ->
  elements f (join ps ++ "]"%char :: rest) acc = Some (JArr (acc ++ vs), rest).
Proof.
  induction 1 as [|p v ps vs Hpv Hrest IH]; [contradiction|].
  intros _ f acc rest Hr Hf.
  destruct f as [|f]; [rewrite length_app in Hf; simpl in Hf; lia|].
  destruct ps as [|p' ps'].
  - inversion Hrest; subst. cbn [join] in *.
    apply elements_close. apply (proj2 Hpv); [simpl; auto|].
    rewrite length_app in Hf. simpl in Hf. lia.
  - change (join (p :: p' :: ps')) with (p ++ ","%char :: join (p' :: ps')) in *.
    rewrite <- app_assoc. cbn [app].
    rewrite (elements_comma f _ acc v (join (p' :: ps') ++ "]"%char :: rest)).
    + rewrite (IH ltac:(discriminate) f (acc ++ [v]) rest Hr).
      * now rewrite <- app_assoc.
      * rewrite !length_app in *. simpl in *. lia.
    + apply (proj2 Hpv); [simpl; auto|].
      rewrite !length_app in Hf. simpl in Hf. lia.
Qed.

Lemma value_open_bracket (f : nat) (r : list ascii) :
  value (S f) ("["%char :: r) =
  match skip_ws r with
  | c' :: r' => if Ascii.eqb c' "]"%char then Some (JArr [], r') else elements f r []
  | [] => None
  end.
Proof. reflexivity. Qed.

Lemma Parses_array (ps : list (list ascii)) (vs : list json) :
  Forall2 Parses ps vs -> Parses (array_chars ps) (JArr vs).
Proof.
  intros H. split; [repeat split; discriminate|].
  intros f rest Hr Hf. unfold array_chars in *.
  destruct f as [|f]; [simpl in Hf; lia|].
  cbn [app]. rewrite value_open_bracket.
  destruct H as [|p v ps vs Hpv Hrest].
  - reflexivity.
  - rewrite <- app_assoc. cbn [app].
    assert (Hj : exists t, join (p :: ps) = p ++ t).
    { destruct ps; [exists []; symmetry; apply app_nil_r|]. eexists. reflexivity. }
    destruct Hj as [t Hj].
    rewrite Hj, <- app_assoc, skip_ws_head by apply Hpv.
    destruct p as [|c p]; [destruct Hpv as [[] _]|].
    assert (Hc : c <> "]"%char) by apply (proj1 Hpv).
    cbn [app]. rewrite (proj2 (Ascii.eqb_neq c "]"%char) Hc).
    replace (c :: p ++ t ++ "]"%char :: rest) with (((c :: p) ++ t) ++ "]"%char :: rest)
      by (rewrite <- app_assoc; reflexivity).
    rewrite <- Hj. rewrite elements_join with (vs := v :: vs).
    + reflexivity.
    + now constructor.
    + discriminate.
    + exact Hr.
    + cbn [length] in Hf. lia.
Qed.

(** *** Objects *)

Lemma members_quote (f : nat) (x : list ascii) (acc : list (list N * json)) :
  members (S f) (quote :: x) acc =
  match string_body x with
  | None => None
  | Some (k, r1) =>
    match skip_ws r1 with
    | c1 :: r2 =>
      if Ascii.eqb c1 ":"%char then
        match value f r2 with
        | None => None
        | Some (v, r3) =>
          let acc' := acc ++ [(k, v)] in
          match skip_ws r3 with
          | c3 :: r4 =>
              if Ascii.eqb c3 ","%char then members f r4 acc'
              else if Ascii.eqb c3 "}"%char then Some (JObj acc', r4)
              else None
          | [] => None
          end
        end
      else None
    | [] => None
    end
  end.
Proof. reflexivity. Qed.

Lemma skip_ws_sep (c : ascii) (x : list ascii) : json_ws c = false -> skip_ws (c :: x) = c :: x.
Proof. intros H. simpl. now rewrite H. Qed.

Lemma members_member (f : nat) (k : string) (p : list ascii) (sep : ascii) (r : list ascii)
    (acc : list (list N * json)) (v : json) :
  json_ws sep = false ->
  value f (p ++ sep :: r) = Some (v, sep :: r) ->
  members (S f) (member k p ++ sep :: r) acc =
  if Ascii.eqb sep ","%char then members f r (acc ++ [(units_of k, v)])
  else if Ascii.eqb sep "}"%char then Some (JObj (acc ++ [(units_of k, v)]), r) else None.
Proof.
  intros Hs Hv. unfold member, quote_string.
  replace (((quote :: flat_map escape_char (list_ascii_of_string k) ++ [quote]) ++
            ":"%char :: p) ++ sep :: r)
    with (quote :: flat_map escape_char (list_ascii_of_string k) ++
          quote :: ":"%char :: p ++ sep :: r)
    by (cbn [app]; rewrite <- !app_assoc; reflexivity).
  rewrite members_quote, string_body_escape. cbv beta iota.
  rewrite (skip_ws_sep ":"%char) by reflexivity. rewrite Ascii.eqb_refl.
  rewrite Hv. cbv beta iota zeta. rewrite skip_ws_sep by exact Hs.
  reflexivity.
Qed.

Definition member_of (kp : string * list ascii) : list ascii := member (fst kp) (snd kp).

Definition MemberParses (kp : string * list ascii) (kv : list N * json) : Prop :=
  units_of (fst kp) = fst kv /\ Parses (snd kp) (snd kv).

Lemma length_member (kp : string * list ascii) :
  length (member_of kp) = length (quote_string (fst kp)) + S (length (snd kp)).
Proof. unfold member_of, member. rewrite length_app. reflexivity. Qed.

Lemma members_join (kps : list (string * list ascii)) (kvs : list (list N * json)) :
  Forall2 MemberParses kps kvs -> kps <> [] ->
  forall f acc rest, rest_ok rest -> 2 * length (join (map member_of kps) ++ ["}"%char]) <= f ->
  members f (join (map member_of kps) ++ "}"%char :: rest) acc = Some (JObj (acc ++ kvs), rest).
Proof.
  induction 1 as [|kp kv kps kvs [Hk Hpv] Hrest IH]; [contradiction|].
  intros _ f acc rest Hr Hf.
  destruct f as [|f]; [rewrite length_app in Hf; simpl in Hf; lia|].
  destruct kv as [k v]. simpl in Hk. subst k.
  destruct kps as [|kp' kps'].
  - inversion Hrest; subst. cbn [map join] in *.
    unfold member_of.
    rewrite (members_member f (fst kp) (snd kp) "}"%char rest acc v); [reflexivity..|].
    apply (proj2 Hpv); [simpl; auto|].
    rewrite length_app, length_member in Hf. simpl in Hf. lia.
  - change (join (map member_of (kp :: kp' :: kps')))
      with (member_of kp ++ ","%char :: join (map member_of (kp' :: kps'))) in *.
    rewrite <- app_assoc. cbn [app]. unfold member_of at 1.
    rewrite (members_member f (fst kp) (snd kp) ","%char
               (join (map member_of (kp' :: kps')) ++ "}"%char :: rest) acc v).
    + cbv beta iota.
      rewrite (IH ltac:(discriminate) f (acc ++ [(units_of (fst kp), v)]) rest Hr).
      * now rewrite <- app_assoc.
      * rewrite !length_app, length_member in Hf. rewrite length_app. simpl in *. lia.
    + reflexivity.
    + apply (proj2 Hpv); [simpl; auto|].
      rewrite !length_app, length_member in Hf. simpl in Hf. lia.
Qed.

Lemma value_open_brace (f : nat) (r : list ascii) :
  value (S f) ("{"%char :: r) =
  match skip_ws r with
  | c' :: r' => if Ascii.eqb c' "}"%char then Some (JObj [], r') else members f r []
  | [] => None
  end.
Proof. reflexivity. Qed.

Lemma Parses_object (kps : list (string * list ascii)) (kvs : list (list N * json)) :
  Forall2 MemberParses kps kvs -> Parses (object_chars (map member_of kps)) (JObj kvs).
Proof.
  intros H. split; [repeat split; discriminate|].
  intros f rest Hr Hf. unfold object_chars in *.
  destruct f as [|f]; [simpl in Hf; lia|].
  cbn [app]. rewrite value_open_brace.
  destruct H as [|kp kv kps kvs Hpv Hrest].
  - reflexivity.
  - rewrite <- app_assoc. cbn [app].
    assert (Hj : exists t, join (map member_of (kp :: kps)) = quote :: t).
    { destruct kps; eexists; reflexivity. }
    destruct Hj as [t Hj]. rewrite Hj. cbn [app].
    rewrite skip_ws_sep by reflexivity.
    change (Ascii.eqb quote "}"%char) with false. cbv beta iota.
    replace (quote :: t ++ "}"%char :: rest)
      with ((quote :: t) ++ "}"%char :: rest) by reflexivity.
    rewrite <- Hj. rewrite members_join with (kvs := kv :: kvs).
    + reflexivity.
    + now constructor.
    + discriminate.
    + exact Hr.
    + cbn [length] in Hf. rewrite Hj in *. cbn [length] in *. lia.
Qed.

(** *** Collections of notes *)

(** The JSON value [JSON.stringify] writes for a note. *)
Definition note_json (n : Note) : json :=
  JObj [(units_of "id", JStr (units_of (id n))); (units_of "title", JStr (units_of (title n)));
        (units_of "content", JStr (units_of (content n)));
        (units_of "tags", JArr (map (fun t => JStr (units_of t)) (tags n)));
        (units_of "createdAt", JNum (Z.ltb (createdAt n) 0) (Z.abs_N (createdAt n)) 0);
        (units_of "updatedAt", JNum (Z.ltb (updatedAt n) 0) (Z.abs_N (updatedAt n)) 0)].

Lemma Forall2_Parses_map {A} (f : A -> list ascii) (g : A -> json) (l : list A) :
  (forall a, Parses (f a) (g a)) -> Forall2 Parses (map f l) (map g l).
Proof. intros H. induction l; simpl; constructor; auto. Qed.

Lemma Parses_note (n : Note) : Parses (note_chars n) (note_json n).
Proof.
  change (note_chars n) with
    (object_chars (map member_of
      [("id", quote_string (id n)); ("title", quote_string (title n));
       ("content", quote_string (content n));
       ("tags", array_chars (map quote_string (tags n)));
       ("createdAt", number_chars (createdAt n)); ("updatedAt", number_chars (updatedAt n))])).
  apply Parses_object.
  do 3 (constructor; [split; [reflexivity|apply Parses_string]|]).
  constructor; [split; [reflexivity|]|].
  { apply Parses_array, Forall2_Parses_map, Parses_string. }
  do 2 (constructor; [split; [reflexivity|apply Parses_number]|]).
  constructor.
Qed.

Lemma Parses_notes (ns : list Note) :
  Parses (array_chars (map note_chars ns)) (JArr (map note_json ns)).
Proof.
  apply Parses_array, Forall2_Parses_map, Parses_note.
Qed.

Lemma JSON_parse_stringify (ns : list Note) :
  JSON_parse (JSON_stringify ns) = Some (JArr (map note_json ns)).
Proof.
  unfold JSON_parse, JSON_stringify. rewrite list_ascii_of_string_of_list_ascii.
  destruct (Parses_notes ns) as [_ P].
  specialize (P (2 * length (array_chars (map note_chars ns))) [] I (le_n _)).
  rewrite app_nil_r in P. rewrite P. reflexivity.
Qed.

Lemma as_string_units (s : string) : as_string (JStr (units_of s)) = Some s.
Proof.
  unfold as_string, units_of.
  replace (forallb (fun n => N.ltb n 256) (map N_of_ascii (list_ascii_of_string s))) with true.
  - rewrite map_map, (map_ext _ (fun a => a)) by apply ascii_N_embedding.
    now rewrite map_id, string_of_list_ascii_of_string.
  - symmetry. apply forallb_forall. intros n Hn.
    apply in_map_iff in Hn as [a [<- _]]. apply N.ltb_lt, N_ascii_bounded.
Qed.

Lemma as_int_number (z : Z) : as_int (JNum (Z.ltb z 0) (Z.abs_N z) 0) = Some z.
Proof.
  unfold as_int. destruct (Z.ltb_spec z 0) as [Hz|Hz].
  - replace (N.eqb (Z.abs_N z) 0) with false
      by (symmetry; apply N.eqb_neq; intros E; apply (f_equal Z.of_N) in E;
          rewrite Zabs2N.id_abs in E; lia).
    cbn -[Z.pow Z.mul]. rewrite Zabs2N.id_abs. f_equal. lia.
  - cbn -[Z.pow Z.mul]. rewrite Zabs2N.id_abs. f_equal. lia.
Qed.

Lemma as_tags_map (ts : list string) :
  as_tags (JArr (map (fun t => JStr (units_of t)) ts)) = Some ts.
Proof.
  unfold as_tags. induction ts as [|t ts IH]; [reflexivity|].
  cbn [map map_option]. now rewrite as_string_units, IH.
Qed.

Lemma as_note_json (n : Note) : as_note (note_json n) = Some n.
Proof.
  destruct n as [i t c g ca ua]. unfold as_note, note_json. cbn [id title content tags createdAt updatedAt].
  rewrite !as_string_units, as_tags_map, !as_int_number. reflexivity.
Qed.

Lemma as_notes_json (ns : list Note) : as_notes (JArr (map note_json ns)) = Some ns.
Proof.
  unfold as_notes. induction ns as [|n ns IH]; [reflexivity|].
  cbn [map map_option]. now rewrite as_note_json, IH.
Qed.

(** Reading back what the persistence effect wrote gives the same notes. *)
Lemma load_stringify (ns : list Note) : load (Some (JSON_stringify ns)) = Loaded ns.
Proof.
  unfold load.
  replace (truthy (JSON_stringify ns)) with true by reflexivity.
  now rewrite JSON_parse_stringify, as_notes_json.
Qed.

End RoundTrip.

(** ** The fuel of the parser

    [JSON_parse] runs [value] with fuel twice the length of the text.  That
    is never what stops it: with that much fuel or more, every call returns
    the same result, so [JSON_parse] is the unbounded recursive-descent
    parser. *)

Module ParseFuel.

Lemma skip_ws_len (l : list ascii) : length (skip_ws l) <= length l.
Proof.
  induction l as [|c l IH]; simpl; [lia|]. destruct (json_ws c); simpl; lia.
Qed.

Lemma skip_ws_cons_len (l r : list ascii) (c : ascii) :
  skip_ws l = c :: r -> length r < length l.
Proof. intros E. pose proof (skip_ws_len l) as H. rewrite E in H. simpl in H. lia. Qed.

Lemma cons_fst_some (c : N) (o : option (list N * list ascii)) (s : list N) (r : list ascii) :
  cons_fst c o = Some (s, r) -> exists s', o = Some (s', r).
Proof.
  destruct o as [[s' r']|]; simpl; [|discriminate].
  intros H. injection H as _ <-. now exists s'.
Qed.

Lemma string_body_len (l : list ascii) (s : list N) (r : list ascii) :
  string_body l = Some (s, r) -> length r < length l.
Proof.
  revert s r. induction l as [l IH] using (induction_ltof1 _ (@length ascii)).
  unfold ltof in IH. intros s r H.
  destruct l as [|c r0]; [discriminate|]. cbn [string_body] in H.
  destruct (Ascii.eqb c quote).
  { injection H as _ <-. simpl. lia. }
  destruct (Ascii.eqb c bslash).
  - destruct r0 as [|e r1]; [discriminate|].
    destruct (Ascii.eqb e "u"%char).
    + destruct r1 as [|h1 [|h2 [|h3 [|h4 r2]]]]; try discriminate.
      destruct (hex_val h1), (hex_val h2), (hex_val h3), (hex_val h4); try discriminate.
      apply cons_fst_some in H as [s' H]. apply IH in H; simpl in *; lia.
    + destruct (unescape e); [|discriminate].
      apply cons_fst_some in H as [s' H]. apply IH in H; simpl in *; lia.
  - destruct (Nat.ltb (nat_of_ascii c) 32); [discriminate|].
    apply cons_fst_some in H as [s' H]. apply IH in H; simpl in *; lia.
Qed.

Lemma digits_len (l : list ascii) (u : Decimal.uint) (r : list ascii) :
  digits l = (u, r) -> length r <= length l.
Proof.
  revert u r. induction l as [|c l IH]; intros u r H; simpl in H.
  - injection H as _ <-. lia.
  - destruct (digit c).
    + destruct (digits l) as [u' r'] eqn:E. injection H as _ <-.
      specialize (IH _ _ eq_refl). simpl. lia.
    + injection H as _ <-. lia.
Qed.

Lemma int_part_len (l : list ascii) (u : Decimal.uint) (r : list ascii) :
  int_part l = Some (u, r) -> length r < length l.
Proof.
  destruct l as [|c r0]; [discriminate|]. unfold int_part.
  destruct (Ascii.eqb c "0"%char).
  - intros H. injection H as _ <-. simpl. lia.
  - destruct (digit c) eqn:Ed; [|discriminate]. intros H. injection H as H.
    cbn [digits] in H. rewrite Ed in H.
    destruct (digits r0) as [u' r'] eqn:E. injection H as _ <-.
    apply digits_len in E. simpl. lia.
Qed.

Lemma frac_part_len (l : list ascii) (u : Decimal.uint) (r : list ascii) :
  frac_part l = Some (u, r) -> length r <= length l.
Proof.
  destruct l as [|c r0]; unfold frac_part.
  - intros H. injection H as _ <-. lia.
  - destruct (Ascii.eqb c "."%char).
    + destruct (digits r0) as [[] r'] eqn:E; try discriminate;
        intros H; injection H as _ <-; apply digits_len in E; simpl; lia.
    + intros H. injection H as _ <-. lia.
Qed.

Lemma exp_part_len (l : list ascii) (x : Z) (r : list ascii) :
  exp_part l = Some (x, r) -> length r <= length l.
Proof.
  destruct l as [|c r0]; unfold exp_part.
  - intros H. injection H as _ <-. lia.
  - destruct (Ascii.eqb c "e"%char || Ascii.eqb c "E"%char).
    + assert (Hs : forall neg r1, (match r0 with
                   | s :: r' => if Ascii.eqb s "-"%char then (true, r')
                                else if Ascii.eqb s "+"%char then (false, r') else (false, r0)
                   | [] => (false, r0)
                   end) = (neg, r1) -> length r1 <= length r0).
      { intros neg r1. destruct r0 as [|s r'].
        - intros E. injection E as _ <-. lia.
        - destruct (Ascii.eqb s "-"%char); [intros E; injection E as _ <-; simpl; lia|].
          destruct (Ascii.eqb s "+"%char); intros E; injection E as _ <-; simpl; lia. }
      destruct (match r0 with
                | s :: r' => if Ascii.eqb s "-"%char then (true, r')
                             else if Ascii.eqb s "+"%char then (false, r') else (false, r0)
                | [] => (false, r0)
                end) as [neg r1] eqn:E1.
      specialize (Hs neg r1 eq_refl).
      destruct (digits r1) as [[] r2] eqn:E2; try discriminate;
        intros H; injection H as _ <-; apply digits_len in E2; simpl; lia.
    + intros H. injection H as _ <-. lia.
Qed.

Lemma minus_sign_len (l : list ascii) (b : bool) (r : list ascii) :
  minus_sign l = (b, r) -> length r <= length l.
Proof.
  destruct l as [|c r0]; simpl.
  - intros H. injection H as _ H. subst r. simpl. lia.
  - destruct (Ascii.eqb c "-"%char); intros H; injection H as _ H; subst r; simpl; lia.
Qed.

Lemma number_len (l : list ascii) (v : json) (r : list ascii) :
  number l = Some (v, r) -> length r < length l.
Proof.
  unfold number. destruct (minus_sign l) as [neg l1] eqn:Em.
  destruct (int_part l1) as [[i l2]|] eqn:Ei; [|discriminate].
  destruct (frac_part l2) as [[fr l3]|] eqn:Ef; [|discriminate].
  destruct (exp_part l3) as [[x l4]|] eqn:Ex; [|discriminate].
  intros H. injection H as _ <-.
  apply minus_sign_len in Em. apply int_part_len in Ei.
  apply frac_part_len in Ef. apply exp_part_len in Ex. lia.
Qed.

Lemma strip_len (p l r : list ascii) : strip p l = Some r -> length r + length p = length l.
Proof.
  revert l. induction p as [|a p IH]; intros l H; simpl in H.
  - injection H as <-. simpl. lia.
  - destruct l as [|b l]; [discriminate|]. destruct (Ascii.eqb a b); [|discriminate].
    apply IH in H. simpl. lia.
Qed.

Lemma literal_len (l : list ascii) (v : json) (r : list ascii) :
  literal l = Some (v, r) -> length r < length l.
Proof.
  unfold literal.
  destruct (strip ["t"; "r"; "u"; "e"]%char l) eqn:E1;
    [intros H; injection H as _ <-; apply strip_len in E1; simpl in E1; lia|].
  destruct (strip ["f"; "a"; "l"; "s"; "e"]%char l) eqn:E2;
    [intros H; injection H as _ <-; apply strip_len in E2; simpl in E2; lia|].
  destruct (strip ["n"; "u"; "l"; "l"]%char l) eqn:E3;
    [intros H; injection H as _ <-; apply strip_len in E3; simpl in E3; lia|].
  apply number_len.
Qed.

(** Each parsing function consumes at least one character. *)
Lemma parse_len (f : nat) :
  (forall l v r, value f l = Some (v, r) -> length r < length l) /\
  (forall l acc v r, elements f l acc = Some (v, r) -> length r < length l) /\
  (forall l acc v r, members f l acc = Some (v, r) -> length r < length l).
Proof.
  induction f as [|f [IHv [IHe IHm]]].
  { repeat split; intros; discriminate. }
  split; [|split].
  - intros l v r H. cbn [value] in H.
    destruct (skip_ws l) as [|c r0] eqn:E; [discriminate|].
    apply skip_ws_cons_len in E.
    destruct (Ascii.eqb c "["%char).
    { destruct (skip_ws r0) as [|c' r'] eqn:E'; [discriminate|].
      destruct (Ascii.eqb c' "]"%char).
      - injection H as _ <-. apply skip_ws_cons_len in E'. lia.
      - apply IHe in H. lia. }
    destruct (Ascii.eqb c "{"%char).
    { destruct (skip_ws r0) as [|c' r'] eqn:E'; [discriminate|].
      destruct (Ascii.eqb c' "}"%char).
      - injection H as _ <-. apply skip_ws_cons_len in E'. lia.
      - apply IHm in H. lia. }
    destruct (Ascii.eqb c quote).
    { destruct (string_body r0) as [[s r']|] eqn:Es; [|discriminate].
      injection H as _ <-. apply string_body_len in Es. lia. }
    apply literal_len in H. simpl in H. lia.
  - intros l acc v r H. cbn [elements] in H.
    destruct (value f l) as [[v1 r1]|] eqn:Ev; [|discriminate]. apply IHv in Ev.
    destruct (skip_ws r1) as [|c r'] eqn:E; [discriminate|]. apply skip_ws_cons_len in E.
    destruct (Ascii.eqb c ","%char).
    + apply IHe in H. lia.
    + destruct (Ascii.eqb c "]"%char); [|discriminate]. injection H as _ <-. lia.
  - intros l acc v r H. cbn [members] in H.
    destruct (skip_ws l) as [|c r0] eqn:E; [discriminate|]. apply skip_ws_cons_len in E.
    destruct (Ascii.eqb c quote); [|discriminate].
    destruct (string_body r0) as [[k r1]|] eqn:Es; [|discriminate]. apply string_body_len in Es.
    destruct (skip_ws r1) as [|c1 r2] eqn:E1; [discriminate|]. apply skip_ws_cons_len in E1.
    destruct (Ascii.eqb c1 ":"%char); [|discriminate].
    destruct (value f r2) as [[v3 r3]|] eqn:Ev; [|discriminate]. apply IHv in Ev.
    destruct (skip_ws r3) as [|c3 r4] eqn:E3; [discriminate|]. apply skip_ws_cons_len in E3.
    destruct (Ascii.eqb c3 ","%char).
    + apply IHm in H. lia.
    + destruct (Ascii.eqb c3 "}"%char); [|discriminate]. injection H as _ <-. lia.
Qed.

(** Fuel beyond twice the length of the text changes no result. *)
Lemma fuel_stable (f : nat) :
  (forall l k, 2 * length l <= f -> value (f + k) l = value f l) /\
  (forall l acc k, 2 * length l + 1 <= f -> elements (f + k) l acc = elements f l acc) /\
  (forall l acc k, 2 * length l + 1 <= f -> members (f + k) l acc = members f l acc).
Proof.
  induction f as [|f [IHv [IHe IHm]]].
  - split; [|split; intros; lia].
    intros l k Hl. destruct l; [|simpl in Hl; lia].
    destruct k; reflexivity.
  - split; [|split].
    + intros l k Hl. change (S f + k) with (S (f + k)). cbn [value].
      destruct (skip_ws l) as [|c r0] eqn:E; [reflexivity|]. apply skip_ws_cons_len in E.
      rewrite (IHe r0 [] k), (IHm r0 [] k) by lia. reflexivity.
    + intros l acc k Hl. change (S f + k) with (S (f + k)). cbn [elements].
      rewrite (IHv l k) by lia.
      destruct (value f l) as [[v r1]|] eqn:Ev; [|reflexivity].
      apply (proj1 (parse_len f)) in Ev.
      destruct (skip_ws r1) as [|c r'] eqn:E; [reflexivity|]. apply skip_ws_cons_len in E.
      rewrite (IHe r' (acc ++ [v]) k) by lia. reflexivity.
    + intros l acc k Hl. change (S f + k) with (S (f + k)). cbn [members].
      destruct (skip_ws l) as [|c r0] eqn:E; [reflexivity|]. apply skip_ws_cons_len in E.
      destruct (Ascii.eqb c quote); [|reflexivity].
      destruct (string_body r0) as [[kk r1]|] eqn:Es; [|reflexivity].
      apply string_body_len in Es.
      destruct (skip_ws r1) as [|c1 r2] eqn:E1; [reflexivity|]. apply skip_ws_cons_len in E1.
      destruct (Ascii.eqb c1 ":"%char); [|reflexivity].
      rewrite (IHv r2 k) by lia.
      destruct (value f r2) as [[v r3]|] eqn:Ev; [|reflexivity].
      apply (proj1 (parse_len f)) in Ev.
      destruct (skip_ws r3) as [|c3 r4] eqn:E3; [reflexivity|]. apply skip_ws_cons_len in E3.
      rewrite (IHm r4 _ k) by lia. reflexivity.
Qed.

Lemma JSON_parse_fuel (text : string) (k : nat) :
  let l := list_ascii_of_string text in
  value (2 * length l + k) l = value (2 * length l) l.
Proof. intros l. apply (proj1 (fuel_stable (2 * length l))). lia. Qed.

End ParseFuel.

(** ** Loading, and deleting the last note *)

Lemma deleteAll_slot (xs : list string) (st : App) (N0 : list Note) :
  incl (notes st) N0 ->
  (exists ns, ns <> [] /\ incl ns N0 /\ storage st = Some (JSON_stringify ns)) ->
  incl (notes (deleteAll xs st)) N0 /\
  exists ns, ns <> [] /\ incl ns N0 /\ storage (deleteAll xs st) = Some (JSON_stringify ns).
Proof.
  revert st. induction xs as [|x xs IH]; intros st Hi Hs; simpl; [auto|].
  apply IH.
  - unfold deleteNote. simpl. intros n Hn. apply filter_In in Hn. apply Hi, Hn.
  - unfold deleteNote, setNotes, persist. simpl.
    destruct (filter (fun n => negb (String.eqb (id n) x)) (notes st)) as [|m l] eqn:E.
    + exact Hs.
    + exists (m :: l). split; [discriminate|]. split; [|reflexivity].
      intros n Hn. rewrite <- E in Hn. apply filter_In in Hn. apply Hi, Hn.
Qed.

(** C10: once a non-empty collection has been persisted, deleting notes
    until none is left keeps in the slot the last non-empty collection, made
    of notes that have been deleted since, and loading the slot brings them
    back. *)
Theorem deleted_notes_reappear (xs : list string) (st : App) :
  notes st <> [] -> storage st = Some (JSON_stringify (notes st)) ->
  notes (deleteAll xs st) = [] ->
  exists ns, ns <> [] /\ incl ns (notes st) /\
    storage (deleteAll xs st) = Some (JSON_stringify ns) /\
    load (storage (deleteAll xs st)) = Loaded ns.
Proof.
  intros Hne Hs _.
  destruct (deleteAll_slot xs st (notes st) (incl_refl _)) as [_ [ns [Hns [Hi Hslot]]]].
  { exists (notes st). auto using incl_refl. }
  exists ns. rewrite Hslot. repeat split; auto.
  apply RoundTrip.load_stringify.
Qed.

Lemma deleted_notes_reappear_witness :
  let st := setNotes [mkNote "a" "Work plan" "" ["x"] 1 100; mkNote "b" "Home" "" ["y"] 2 200]
                     (initial None) in
  (notes st <> [] /\ storage st = Some (JSON_stringify (notes st)) /\
   notes (deleteAll ["a"; "b"] st) = []) /\
  exists ns, ns <> [] /\ incl ns (notes st) /\
    storage (deleteAll ["a"; "b"] st) = Some (JSON_stringify ns) /\
    load (storage (deleteAll ["a"; "b"] st)) = Loaded ns.
Proof.
  intros st. split; [split; [discriminate|split; reflexivity]|].
  apply deleted_notes_reappear; [discriminate|reflexivity|reflexivity].
Defined.




(* ================================================================== *)
(** * Further properties of the component *)

(** ** The tag list of the filter bar *)

Lemma set_add_In (s : list string) (tag u : string) :
  In u (set_add s tag) <-> In u s \/ u = tag.
Proof.
  unfold set_add. destruct (existsb (String.eqb tag) s) eqn:E.
  - apply existsb_eqb_In in E. split; [tauto|]. intros [H| ->]; assumption.
  - rewrite in_app_iff. simpl. split; intros [H|H]; try tauto.
    + destruct H as [<-|[]]. now right.
    + subst. right. now left.
Qed.

Lemma set_add_NoDup (s : list string) (tag : string) : NoDup s -> NoDup (set_add s tag).
Proof.
  unfold set_add. intros Hs. destruct (existsb (String.eqb tag) s) eqn:E; [exact Hs|].
  apply (Permutation_NoDup (Permutation_cons_append s tag)). constructor; [|exact Hs].
  intros Hin. apply existsb_eqb_In in Hin. congruence.
Qed.

Lemma fold_set_add_In (ts s : list string) (u : string) :
  In u (fold_left set_add ts s) <-> In u s \/ In u ts.
Proof.
  revert s. induction ts as [|t ts IH]; intros s; simpl; [tauto|].
  rewrite IH, set_add_In. split; intros H; decompose [or] H; subst; tauto.
Qed.

Lemma fold_set_add_NoDup (ts s : list string) : NoDup s -> NoDup (fold_left set_add ts s).
Proof.
  revert s. induction ts as [|t ts IH]; intros s Hs; simpl; [exact Hs|].
  apply IH, set_add_NoDup, Hs.
Qed.

Definition collect_tags (ns : list Note) (s : list string) : list string :=
  fold_left (fun tagSet note => fold_left set_add (tags note) tagSet) ns s.

Lemma collect_tags_In (ns : list Note) (s : list string) (u : string) :
  In u (collect_tags ns s) <-> In u s \/ exists n, In n ns /\ In u (tags n).
Proof.
  unfold collect_tags. revert s. induction ns as [|n ns IH]; intros s; simpl.
  - split; [tauto|]. intros [H|[m [[] _]]]. exact H.
  - rewrite IH, fold_set_add_In. split.
    + intros [[H|H]|[m [Hm Hu]]]; [tauto|right; exists n; tauto|right; exists m; tauto].
    + intros [H|[m [[<-|Hm] Hu]]]; [tauto|tauto|right; exists m; tauto].
Qed.

Lemma collect_tags_NoDup (ns : list Note) (s : list string) : NoDup s -> NoDup (collect_tags ns s).
Proof.
  unfold collect_tags. revert s. induction ns as [|n ns IH]; intros s Hs; simpl; [exact Hs|].
  apply IH, fold_set_add_NoDup, Hs.
Qed.

Lemma insert_str_perm (x : string) (l : list string) : Permutation (insert_str x l) (x :: l).
Proof.
  induction l as [|y l IH]; simpl; [reflexivity|].
  destruct (String.leb x y); [reflexivity|].
  etransitivity; [apply perm_skip, IH|apply perm_swap].
Qed.

Lemma sort_str_perm (l : list string) : Permutation (sort_str l) l.
Proof.
  induction l as [|x l IH]; simpl; [reflexivity|].
  rewrite insert_str_perm. now apply perm_skip.
Qed.

Definition str_le (a b : string) : Prop := String.leb a b = true.

Lemma leb_flip (a b : string) : String.leb a b = false -> String.leb b a = true.
Proof.
  unfold String.leb. rewrite String.compare_antisym.
  destruct (String.compare b a); simpl; congruence.
Qed.

Lemma insert_str_sorted (x : string) (l : list string) :
  Sorted str_le l -> Sorted str_le (insert_str x l).
Proof.
  unfold str_le. induction 1 as [|y l Hs IH Hhd]; simpl.
  - repeat constructor.
  - destruct (String.leb x y) eqn:Exy.
    + constructor; [constructor; assumption|constructor; exact Exy].
    + constructor; [exact IH|].
      destruct l as [|z l]; simpl.
      * constructor. now apply leb_flip.
      * inversion Hhd; subst.
        destruct (String.leb x z); constructor; [now apply leb_flip|assumption].
Qed.

Lemma sort_str_sorted (l : list string) : Sorted str_le (sort_str l).
Proof.
  induction l as [|x l IH]; simpl; [constructor|]. now apply insert_str_sorted.
Qed.

Lemma leb_neq_ltb (a b : string) : String.leb a b = true -> a <> b -> String.ltb a b = true.
Proof.
  unfold String.leb, String.ltb. intros H Hne.
  destruct (String.compare a b) eqn:E; try reflexivity; try discriminate.
  apply String.compare_eq_iff in E. contradiction.
Qed.

Lemma sorted_nodup_strict (l : list string) :
  Sorted str_le l -> NoDup l -> Sorted (fun a b => String.ltb a b = true) l.
Proof.
  induction 1 as [|a l Hs IH Hhd]; intros Hnd; constructor.
  - apply IH. now inversion Hnd.
  - inversion Hnd as [|? ? Hna _]; subst.
    destruct Hhd as [|b l' Hab]; constructor.
    apply leb_neq_ltb; [exact Hab|]. intros ->. apply Hna. now left.
Qed.

Lemma allTags_In (ns : list Note) (t : string) :
  In t (allTags ns) <-> exists n, In n ns /\ In t (tags n).
Proof.
  unfold allTags. split.
  - intros H. apply (Permutation_in _ (sort_str_perm _)) in H.
    apply (collect_tags_In ns []) in H. destruct H as [[]|H]. exact H.
  - intros H. apply (Permutation_in _ (Permutation_sym (sort_str_perm _))).
    apply (collect_tags_In ns []). now right.
Qed.

Lemma allTags_NoDup (ns : list Note) : NoDup (allTags ns).
Proof.
  unfold allTags.
  apply (Permutation_NoDup (Permutation_sym (sort_str_perm _))).
  apply (collect_tags_NoDup ns []). constructor.
Qed.

(** [allTags] lists exactly the tags carried by some note of the
    collection. *)
Theorem allTags_spec (ns : list Note) (t : string) :
  In t (allTags ns) <-> exists n, In n ns /\ In t (tags n).
Proof. apply allTags_In. Qed.

(** [allTags] has no duplicates and is in strictly ascending order of code
    units: each tag sorts before the next. *)
Theorem allTags_strictly_sorted (ns : list Note) :
  NoDup (allTags ns) /\ Sorted (fun a b => String.ltb a b = true) (allTags ns).
Proof.
  split; [apply allTags_NoDup|].
  apply sorted_nodup_strict; [apply sort_str_sorted|apply allTags_NoDup].
Qed.

(** ** The filter bar and the visible list *)

Lemma in_filteredNotes (ns : list Note) (q : string) (t : option string) (n : Note) :
  In n (filteredNotes ns q t) <-> In n ns /\ matchesSearch q n = true /\ matchesTag t n = true.
Proof.
  unfold filteredNotes. split.
  - intros H. apply (Permutation_in _ (sort_by_perm _ _)) in H.
    apply filter_In in H as [Hin Hm]. apply andb_true_iff in Hm. tauto.
  - intros [Hin [Hs Ht]].
    apply (Permutation_in _ (Permutation_sym (sort_by_perm _ _))).
    apply filter_In. split; [exact Hin|]. now rewrite Hs, Ht.
Qed.

Lemma filteredNotes_no_filter (ns : list Note) : Permutation (filteredNotes ns "" None) ns.
Proof.
  unfold filteredNotes. rewrite sort_by_perm.
  rewrite (filter_ext_in _ (fun _ => true)); [rewrite filter_true; reflexivity|].
  intros n _. reflexivity.
Qed.

Lemma buttons_inactive (o : option string) (l : list string) :
  (forall y, In y l -> is_selected o y = false) ->
  filter button_active (map (fun tag => TagButton tag (is_selected o tag)) l) = [].
Proof.
  induction l as [|y l IH]; intros H; simpl; [reflexivity|].
  rewrite (H y (or_introl eq_refl)). apply IH. intros z Hz. apply H. now right.
Qed.

Lemma buttons_active_le1 (o : option string) (l : list string) :
  NoDup l ->
  length (filter button_active (map (fun tag => TagButton tag (is_selected o tag)) l)) <= 1.
Proof.
  induction 1 as [|x l Hx Hnd IH]; simpl; [lia|].
  destruct (is_selected o x) eqn:E; [|exact IH].
  rewrite buttons_inactive; [simpl; lia|].
  intros y Hy. destruct o as [t|]; [|reflexivity]. simpl in E |- *.
  apply String.eqb_eq in E. subst t. apply String.eqb_neq. intros ->. contradiction.
Qed.

(** The filter bar is shown exactly when some note carries a tag, and at
    most one of its buttons ("All" or a tag) is marked active. *)
Theorem filter_bar_spec (st : App) :
  (filter_bar st <> None <-> exists n, In n (notes st) /\ tags n <> []) /\
  (forall bs, filter_bar st = Some bs -> length (filter button_active bs) <= 1).
Proof.
  unfold filter_bar. split.
  - destruct (allTags (notes st)) as [|t ts] eqn:E; simpl.
    + split; [intros H; contradiction|]. intros [n [Hn Ht]].
      destruct (tags n) as [|u us] eqn:Eu; [contradiction|].
      assert (Hu : In u (allTags (notes st))).
      { apply allTags_In. exists n. rewrite Eu. split; [exact Hn|now left]. }
      rewrite E in Hu. destruct Hu.
    + split; [|discriminate]. intros _.
      assert (Hu : In t (allTags (notes st))) by (rewrite E; now left).
      apply allTags_In in Hu as [n [Hn Ht]]. exists n. split; [exact Hn|].
      intros Hnil. rewrite Hnil in Ht. destruct Ht.
  - intros bs. destruct (Nat.ltb 0 (length (allTags (notes st)))); [|discriminate].
    intros H. injection H as <-. simpl.
    pose proof (buttons_active_le1 (selectedTag st) _ (allTags_NoDup (notes st))) as Hle.
    destruct (selectedTag st) as [t|] eqn:Es; cbn [filter button_active length].
    + exact Hle.
    + rewrite buttons_inactive; [simpl; lia|reflexivity].
Qed.

Lemma filter_bar_spec_witness :
  let st := mkApp [mkNote "a" "" "" ["y"; "x"] 1 1; mkNote "b" "" "" ["x"] 2 2]
                  false None "" (Some "x") "" "" "" [] None in
  filter_bar st = Some [AllButton false; TagButton "x" true; TagButton "y" false] /\
  length (filter button_active [AllButton false; TagButton "x" true; TagButton "y" false]) <= 1.
Proof.
  intros st. assert (H : filter_bar st = Some [AllButton false; TagButton "x" true; TagButton "y" false])
    by reflexivity.
  split; [exact H|]. apply (proj2 (filter_bar_spec st) _ H).
Defined.

(** A tag button toggles: on the selected tag it clears the filter; on
    another tag of the bar, with an empty search, it selects that tag and
    the visible list is not empty and holds only notes with that tag. *)
Theorem onFilterTag_spec (tag : string) (st : App) :
  (selectedTag st = Some tag -> selectedTag (onFilterTag tag st) = None) /\
  (In tag (allTags (notes st)) -> searchQuery st = "" -> selectedTag st <> Some tag ->
   let st' := onFilterTag tag st in
   selectedTag st' = Some tag /\
   filteredNotes (notes st') (searchQuery st') (selectedTag st') <> [] /\
   (forall n, In n (filteredNotes (notes st') (searchQuery st') (selectedTag st')) ->
      In tag (tags n))).
Proof.
  unfold onFilterTag. split.
  - intros E. rewrite E. simpl. now rewrite String.eqb_refl.
  - intros Hin Hq Hsel.
    assert (Hns : is_selected (selectedTag st) tag = false).
    { destruct (selectedTag st) as [t|]; [|reflexivity]. simpl.
      apply String.eqb_neq. intros ->. now apply Hsel. }
    rewrite Hns. cbn [selectedTag notes searchQuery setSelectedTag]. rewrite Hq.
    split; [reflexivity|split].
    + apply allTags_In in Hin as [n [Hn Ht]].
      intros Hnil. apply (in_nil (a := n)). rewrite <- Hnil.
      apply in_filteredNotes. split; [exact Hn|split; [reflexivity|]].
      simpl. now apply existsb_eqb_In.
    + intros n Hn. apply in_filteredNotes in Hn as [_ [_ Ht]].
      simpl in Ht. now apply existsb_eqb_In.
Qed.

Lemma onFilterTag_spec_witness :
  let st := mkApp [mkNote "a" "Work plan" "" ["x"] 1 1; mkNote "b" "Home" "" ["y"] 2 2]
                  false None "" None "" "" "" [] None in
  (In "x" (allTags (notes st)) /\ searchQuery st = "" /\ selectedTag st <> Some "x") /\
  selectedTag (onFilterTag "x" st) = Some "x" /\
  selectedTag (onFilterTag "x" (onFilterTag "x" st)) = None.
Proof.
  intros st.
  assert (Hin : In "x" (allTags (notes st))) by (simpl; tauto).
  split; [split; [exact Hin|split; [reflexivity|discriminate]]|split].
  - apply (proj2 (onFilterTag_spec "x" st) Hin eq_refl ltac:(discriminate)).
  - apply (proj1 (onFilterTag_spec "x" _)).
    apply (proj2 (onFilterTag_spec "x" st) Hin eq_refl ltac:(discriminate)).
Defined.

(** With no search text and no tag filter, the list view shows the empty
    state "No notes yet" with its "Create your first note" button exactly
    when the collection is empty; otherwise it shows one card per note. *)
Theorem render_no_filter (st : App) :
  isEditing st = false -> searchQuery st = "" -> selectedTag st = None ->
  (notes st = [] -> render st = ListPage "" None (EmptyState "No notes yet" true)) /\
  (notes st <> [] -> exists bar cards,
     render st = ListPage "" bar (Cards cards) /\ Permutation cards (map card (notes st))).
Proof.
  intros He Hq Ht. unfold render, list_body. rewrite He, Hq, Ht. split.
  - intros Hn. unfold filter_bar. rewrite Hn. reflexivity.
  - intros Hn. pose proof (filteredNotes_no_filter (notes st)) as P.
    destruct (Nat.eqb_spec (length (filteredNotes (notes st) "" None)) 0) as [E|E].
    + apply length_zero_iff_nil in E. rewrite E in P.
      apply Permutation_nil in P. contradiction.
    + exists (filter_bar st), (map card (filteredNotes (notes st) "" None)).
      split; [reflexivity|]. now apply Permutation_map.
Qed.

Lemma render_no_filter_witness :
  let st := mkApp [mkNote "a" "Work plan" "" ["x"] 1 1] false None "" None "" "" "" [] None in
  (isEditing st = false /\ searchQuery st = "" /\ selectedTag st = None) /\
  render (deleteNote true "a" st) = ListPage "" None (EmptyState "No notes yet" true).
Proof.
  intros st. split; [repeat split|].
  apply (proj1 (render_no_filter (deleteNote true "a" st) eq_refl eq_refl eq_refl)).
  reflexivity.
Defined.

(** ** Searching *)

Lemma toLowerCase_empty (q : string) : String.eqb (toLowerCase q) "" = String.eqb q "".
Proof. destruct q; reflexivity. Qed.

(** The search ignores case: a query and its lowercase form show the same
    list. *)
Theorem filteredNotes_toLowerCase (ns : list Note) (q : string) (t : option string) :
  filteredNotes ns (toLowerCase q) t = filteredNotes ns q t.
Proof.
  unfold filteredNotes. f_equal. apply filter_ext. intros n.
  unfold matchesSearch. now rewrite toLowerCase_empty, toLowerCase_idem.
Qed.

(** ** Editing the tags of the buffer *)

Lemma addTag_idem (st : App) : addTag (addTag st) = addTag st.
Proof.
  destruct (truthy (toLowerCase (trim (tagInput st))) &&
            negb (existsb (String.eqb (toLowerCase (trim (tagInput st)))) (currentTags st))) eqn:E.
  - assert (H : addTag st =
      mkApp (notes st) (isEditing st) (currentNote st) (searchQuery st) (selectedTag st)
            (editTitle st) (editContent st) ""
            (currentTags st ++ [toLowerCase (trim (tagInput st))]) (storage st))
      by (unfold addTag; now rewrite E).
    rewrite H. reflexivity.
  - assert (H : addTag st = st) by (unfold addTag; rewrite E; now destruct st).
    now rewrite H, H.
Qed.

(** Enter in the tag input adds the typed tag at most once: a second Enter
    (the input then being cleared, or the tag refused) changes nothing. *)
Theorem handleTagInputKeyDown_Enter_twice (st : App) :
  handleTagInputKeyDown "Enter" (fst (handleTagInputKeyDown "Enter" st)) =
  handleTagInputKeyDown "Enter" st.
Proof. unfold handleTagInputKeyDown. simpl. now rewrite addTag_idem. Qed.

Lemma filter_neq_notin (t : string) (l : list string) :
  ~ In t l -> filter (fun u => negb (String.eqb u t)) l = l.
Proof.
  intros Hn. rewrite (filter_ext_in _ (fun _ => true)); [apply filter_true|].
  intros u Hu. destruct (String.eqb_spec u t) as [->|]; [contradiction|reflexivity].
Qed.

(** [removeTag t] drops every occurrence of [t] from the buffer's tags and
    keeps the others; on a tag that is not there it changes nothing. *)
Theorem removeTag_spec (t : string) (st : App) :
  (forall u, In u (currentTags (removeTag t st)) <-> In u (currentTags st) /\ u <> t) /\
  (~ In t (currentTags st) -> currentTags (removeTag t st) = currentTags st).
Proof.
  split.
  - intros u. simpl. rewrite filter_In, negb_true_iff, String.eqb_neq. reflexivity.
  - apply filter_neq_notin.
Qed.

Lemma removeTag_spec_witness :
  let st := mkApp [] true None "" None "" "" "" ["x"; "y"] None in
  ~ In "z" (currentTags st) /\ currentTags (removeTag "z" st) = ["x"; "y"].
Proof.
  intros st. assert (H : ~ In "z" (currentTags st)) by (simpl; intuition discriminate).
  split; [exact H|]. apply (proj2 (removeTag_spec "z" st) H).
Defined.

(** Removing the tag that [addTag] has just added restores the buffer's
    tag list. *)
Theorem removeTag_addTag (st : App) :
  ~ In (toLowerCase (trim (tagInput st))) (currentTags st) ->
  currentTags (removeTag (toLowerCase (trim (tagInput st))) (addTag st)) = currentTags st.
Proof.
  intros Hn. unfold addTag.
  destruct (truthy (toLowerCase (trim (tagInput st))) &&
            negb (existsb (String.eqb (toLowerCase (trim (tagInput st)))) (currentTags st)));
    simpl.
  - rewrite filter_app, filter_neq_notin by exact Hn. simpl.
    rewrite String.eqb_refl. apply app_nil_r.
  - now apply filter_neq_notin.
Qed.

Lemma removeTag_addTag_witness :
  let st := mkApp [] true None "" None "" "" " Work " ["x"] None in
  ~ In (toLowerCase (trim (tagInput st))) (currentTags st) /\
  currentTags (addTag st) = ["x"; "work"] /\
  currentTags (removeTag (toLowerCase (trim (tagInput st))) (addTag st)) = ["x"].
Proof.
  intros st.
  assert (H : ~ In (toLowerCase (trim (tagInput st))) (currentTags st))
    by (vm_compute; intuition discriminate).
  split; [exact H|split; [reflexivity|]]. apply (removeTag_addTag st H).
Defined.

(** ** Tags are never empty and never padded with whitespace *)

Lemma is_ws_lower (c : ascii) : is_ws (lower_char c) = is_ws c.
Proof.
  destruct c as [b0 b1 b2 b3 b4 b5 b6 b7].
  destruct b0, b1, b2, b3, b4, b5, b6, b7; reflexivity.
Qed.

Lemma trimStart_lower (s : string) : trimStart (toLowerCase s) = toLowerCase (trimStart s).
Proof.
  induction s as [|c s IH]; simpl; [reflexivity|].
  rewrite is_ws_lower. destruct (is_ws c); [exact IH|reflexivity].
Qed.

Lemma trimEnd_lower (s : string) : trimEnd (toLowerCase s) = toLowerCase (trimEnd s).
Proof.
  induction s as [|c s IH]; simpl; [reflexivity|].
  rewrite IH, is_ws_lower, toLowerCase_empty.
  destruct (is_ws c && String.eqb (trimEnd s) ""); reflexivity.
Qed.

Lemma trim_lower (s : string) : trim (toLowerCase s) = toLowerCase (trim s).
Proof. unfold trim. now rewrite trimStart_lower, trimEnd_lower. Qed.

Lemma trimEnd_idem (s : string) : trimEnd (trimEnd s) = trimEnd s.
Proof.
  induction s as [|c s IH]; simpl; [reflexivity|].
  destruct (is_ws c && String.eqb (trimEnd s) "") eqn:E; [reflexivity|].
  simpl. now rewrite IH, E.
Qed.

Definition no_ws_head (s : string) : Prop :=
  match s with
  | EmptyString => True
  | String c _ => is_ws c = false
  end.

Lemma trimStart_head (s : string) : no_ws_head (trimStart s).
Proof.
  induction s as [|c s IH]; simpl; [exact I|].
  destruct (is_ws c) eqn:E; [exact IH|exact E].
Qed.

Lemma trimStart_trimEnd (s : string) : no_ws_head s -> trimStart (trimEnd s) = trimEnd s.
Proof.
  destruct s as [|c s]; simpl; [reflexivity|].
  intros Hc. rewrite Hc. simpl. now rewrite Hc.
Qed.

Lemma trim_idem (s : string) : trim (trim s) = trim s.
Proof.
  unfold trim. rewrite trimStart_trimEnd by apply trimStart_head.
  apply trimEnd_idem.
Qed.

Lemma addTag_clean (s : string) :
  truthy (toLowerCase (trim s)) = true -> tag_clean (toLowerCase (trim s)).
Proof.
  unfold truthy. intros H. split.
  - intros E. rewrite E in H. discriminate.
  - now rewrite trim_lower, trim_idem.
Qed.

Lemma addTag_currentTags_clean (st : App) :
  (forall t, In t (currentTags st) -> tag_clean t) ->
  forall t, In t (currentTags (addTag st)) -> tag_clean t.
Proof.
  unfold addTag. intros Hc.
  destruct (truthy (toLowerCase (trim (tagInput st)))) eqn:Ht; simpl; [|exact Hc].
  destruct (existsb _ _); simpl; [exact Hc|].
  intros t Hin. apply in_app_or in Hin as [Hin|[<-|[]]]; [now apply Hc|].
  now apply addTag_clean.
Qed.

(** Every tag of every note and of the edit buffer is non-empty and equal
    to its own [trim]: every event keeps that, so every run of events from
    a state that satisfies it does too. *)
Theorem tags_stay_clean (st st' : App) :
  app_clean st -> step st st' -> app_clean st'.
Proof.
  intros [Hn Hc] Hstep.
  destruct Hstep as [st|st n Hin|st|st s|st s|st s|st|st t|st now uuid|st b x|st s|st t];
    try (split; assumption).
  - split; [exact Hn|intros t []].
  - split; [exact Hn|]. intros t Ht. apply (Hn n); [|exact Ht].
    eapply filteredNotes_incl; exact Hin.
  - split; [exact Hn|intros t []].
  - split; [rewrite addTag_notes; exact Hn|]. now apply addTag_currentTags_clean.
  - split; [exact Hn|]. intros u Hu. apply filter_In in Hu. apply Hc, Hu.
  - unfold saveNote.
    destruct (negb (truthy (trim (editTitle st))) && negb (truthy (trim (editContent st))));
      [split; assumption|].
    split; [|intros t []].
    destruct (currentNote st) as [cn|]; simpl.
    + intros n u Hin Hu. apply in_map_iff in Hin as [m [<- Hm]].
      destruct (String.eqb (id m) (id cn)); [now apply Hc|now apply (Hn m)].
    + intros n u [<-|Hin] Hu; [now apply Hc|now apply (Hn n)].
  - unfold deleteNote. destruct b; [|split; assumption].
    split; [|exact Hc]. simpl. intros n u Hin Hu. apply filter_In in Hin.
    now apply (Hn n).
Qed.

Lemma tags_stay_clean_witness :
  let st := mkApp [mkNote "a" "t" "" ["x"] 1 1] true None "" None "" "" "  Work " ["y"] None in
  app_clean st /\ app_clean (addTag st) /\ currentTags (addTag st) = ["y"; "work"].
Proof.
  intros st.
  assert (Hok : app_clean st).
  { split.
    - intros n t [<-|[]] [<-|[]]. split; [discriminate|reflexivity].
    - intros t [<-|[]]. split; [discriminate|reflexivity]. }
  split; [exact Hok|split; [|reflexivity]].
  apply (tags_stay_clean st); [exact Hok|constructor].
Defined.

(** ** The slot and the collection stay in step *)

Lemma setNotes_sync (ns : list Note) (st : App) : storage_in_sync (setNotes ns st).
Proof.
  unfold storage_in_sync, setNotes, persist. simpl. intros Hne.
  destruct ns as [|n ns]; [contradiction|reflexivity].
Qed.

Lemma sync_frame (st st' : App) :
  notes st' = notes st -> storage st' = storage st ->
  storage_in_sync st -> storage_in_sync st'.
Proof. unfold storage_in_sync. intros -> ->. exact (fun H => H). Qed.

Lemma step_sync (st st' : App) : storage_in_sync st -> step st st' -> storage_in_sync st'.
Proof.
  intros Hs Hstep.
  destruct Hstep as [st|st n Hin|st|st s|st s|st s|st|st t|st now uuid|st b x|st s|st t];
    try (apply (sync_frame st); [reflexivity|reflexivity|exact Hs]).
  - apply (sync_frame st); [apply addTag_notes| |exact Hs].
    unfold addTag. destruct (_ && _); reflexivity.
  - unfold saveNote. destruct (_ && _); [exact Hs|].
    eapply sync_frame; [reflexivity|reflexivity|apply setNotes_sync].
  - unfold deleteNote. destruct b; [apply setNotes_sync|exact Hs].
Qed.

(** Along every run of events from a state where the slot holds the
    collection whenever it is non-empty (the state after mounting, for
    one), reloading the page while the collection is non-empty loads back
    exactly that collection. *)
Theorem reload_restores (st0 st : App) :
  storage_in_sync st0 -> steps st0 st -> notes st <> [] ->
  load (storage st) = Loaded (notes st).
Proof.
  intros Hs Hrun. induction Hrun as [st|st1 st2 st3 H12 H23 IH].
  - intros Hne. rewrite (Hs Hne). apply RoundTrip.load_stringify.
  - apply IH. eapply step_sync; [exact Hs|exact H12].
Qed.

Lemma reload_restores_witness :
  let st := saveNote 5 "u" (setTitle "t" (startNewNote (initial None))) in
  (storage_in_sync (initial None) /\ steps (initial None) st /\ notes st <> []) /\
  load (storage st) = Loaded [mkNote "u" "t" "" [] 5 5].
Proof.
  intros st.
  assert (Hs : storage_in_sync (initial None)) by (intros H; now contradiction H).
  assert (Hr : steps (initial None) st).
  { eapply Relation_Operators.rt1n_trans; [apply step_startNewNote|].
    eapply Relation_Operators.rt1n_trans; [apply step_setTitle|].
    eapply Relation_Operators.rt1n_trans; [apply step_saveNote|]. apply Relation_Operators.rt1n_refl. }
  assert (Hn : notes st <> []) by discriminate.
  split; [split; [exact Hs|split; [exact Hr|exact Hn]]|].
  apply (reload_restores (initial None) st Hs Hr Hn).
Defined.

(** ** Where a saved note shows in the list *)

Lemma insert_by_head (x : Note) (l : list Note) :
  (forall y, In y l -> (updatedAt y <= updatedAt x)%Z) ->
  insert_by byUpdatedDesc x l = x :: l.
Proof.
  destruct l as [|y l]; intros H; simpl; [reflexivity|].
  unfold byUpdatedDesc. specialize (H y (or_introl eq_refl)).
  destruct (Z.leb_spec (updatedAt y - updatedAt x) 0); [reflexivity|lia].
Qed.

(** A note created by [saveNote] with a timestamp no older than any note's
    comes first in the visible list, when it passes the search and the tag
    filter. *)
Theorem saveNote_new_first (now : Z) (uuid : string) (st : App) :
  currentNote st = None -> save_guard st ->
  (forall n, In n (notes st) -> (updatedAt n <= now)%Z) ->
  matchesSearch (searchQuery st) (mkNote uuid (editTitle st) (editContent st) (currentTags st) now now) = true ->
  matchesTag (selectedTag st) (mkNote uuid (editTitle st) (editContent st) (currentTags st) now now) = true ->
  hd_error (filteredNotes (notes (saveNote now uuid st)) (searchQuery (saveNote now uuid st))
                          (selectedTag (saveNote now uuid st))) =
  Some (mkNote uuid (editTitle st) (editContent st) (currentTags st) now now).
Proof.
  intros Hc Hg Hle Hs Ht. rewrite saveNote_guard by exact Hg. rewrite Hc.
  cbn [notes searchQuery selectedTag cancelEdit setNotes].
  unfold filteredNotes. cbn [filter]. rewrite Hs, Ht. cbn [andb sort_by].
  rewrite insert_by_head; [reflexivity|].
  intros y Hy. apply (Permutation_in _ (sort_by_perm _ _)) in Hy.
  apply filter_In in Hy as [Hy _]. cbn [updatedAt]. now apply Hle.
Qed.

Lemma saveNote_new_first_witness :
  let st := mkApp [mkNote "a" "old" "" [] 1 9] true None "" None "new" "" "" [] None in
  (currentNote st = None /\ save_guard st) /\
  hd_error (filteredNotes (notes (saveNote 10 "b" st)) (searchQuery (saveNote 10 "b" st))
                          (selectedTag (saveNote 10 "b" st))) =
  Some (mkNote "b" "new" "" [] 10 10).
Proof.
  intros st.
  assert (Hg : save_guard st) by (left; discriminate).
  split; [split; [reflexivity|exact Hg]|].
  apply (saveNote_new_first 10 "b" st eq_refl Hg); [|reflexivity|reflexivity].
  intros n [<-|[]]. simpl. lia.
Defined.

Lemma nodup_id_eq (l : list Note) (a b : Note) :
  NoDup (map id l) -> In a l -> In b l -> id a = id b -> a = b.
Proof.
  induction l as [|x l IH]; simpl; [tauto|].
  intros Hnd Ha Hb E. inversion Hnd as [|? ? Hx Hl]; subst.
  destruct Ha as [<-|Ha], Hb as [<-|Hb]; try reflexivity.
  - exfalso. apply Hx. rewrite E. now apply in_map.
  - exfalso. apply Hx. rewrite <- E. now apply in_map.
  - now apply IH.
Qed.

(** A note edited by [saveNote] comes first in the visible list when its
    new timestamp is newer than every other note's and it passes the
    search and the tag filter (ids being distinct). *)
Theorem saveNote_edit_first (now : Z) (uuid : string) (st : App) (cn m : Note) :
  currentNote st = Some cn -> save_guard st ->
  NoDup (map id (notes st)) -> In m (notes st) -> id m = id cn ->
  (forall n, In n (notes st) -> id n <> id cn -> (updatedAt n < now)%Z) ->
  matchesSearch (searchQuery st) (updated st now m) = true ->
  matchesTag (selectedTag st) (updated st now m) = true ->
  hd_error (filteredNotes (notes (saveNote now uuid st)) (searchQuery (saveNote now uuid st))
                          (selectedTag (saveNote now uuid st))) =
  Some (updated st now m).
Proof.
  intros Hc Hg Hnd Hm Hid Hlt Hs Ht. rewrite saveNote_guard by exact Hg. rewrite Hc.
  cbn [notes searchQuery selectedTag cancelEdit setNotes].
  set (f := fun n => if String.eqb (id n) (id cn) then updated st now n else n).
  set (L := filteredNotes (map f (notes st)) (searchQuery st) (selectedTag st)).
  assert (Hu : In (updated st now m) L).
  { apply in_filteredNotes. split; [|split; [exact Hs|exact Ht]].
    replace (updated st now m) with (f m); [now apply in_map|].
    unfold f. now rewrite Hid, String.eqb_refl. }
  assert (Hsorted : StronglySorted newer_first L).
  { apply Sorted_StronglySorted; [unfold Relations_1.Transitive, newer_first; intros; lia|].
    apply sort_by_sorted. }
  destruct L as [|h rest] eqn:EL; [destruct Hu|]. simpl. f_equal.
  destruct Hu as [Hu|Hu]; [exact Hu|].
  assert (Hh : In h L) by (rewrite EL; now left).
  apply in_filteredNotes in Hh as [Hh _]. apply in_map_iff in Hh as [n [Hfn Hn]].
  unfold f in Hfn. destruct (String.eqb_spec (id n) (id cn)) as [E|E].
  - rewrite <- Hfn. f_equal. apply (nodup_id_eq (notes st)); [exact Hnd|exact Hn|exact Hm|congruence].
  - subst h. inversion Hsorted as [|? ? _ Hall]; subst.
    apply Forall_forall with (x := updated st now m) in Hall; [|exact Hu].
    unfold newer_first in Hall. cbn [updatedAt updated] in Hall.
    specialize (Hlt n Hn E). lia.
Qed.

Lemma saveNote_edit_first_witness :
  let a := mkNote "a" "old" "" [] 1 3 in
  let b := mkNote "b" "other" "" [] 2 9 in
  let st := mkApp [a; b] true (Some a) "" None "edited" "" "" [] None in
  (save_guard st /\ NoDup (map id (notes st))) /\
  hd_error (filteredNotes (notes (saveNote 10 "u" st)) (searchQuery (saveNote 10 "u" st))
                          (selectedTag (saveNote 10 "u" st))) =
  Some (updated st 10 a).
Proof.
  intros a b st.
  assert (Hg : save_guard st) by (left; discriminate).
  assert (Hnd : NoDup (map id (notes st))).
  { simpl. constructor; [simpl; intuition discriminate|constructor; [intros []|constructor]]. }
  split; [split; [exact Hg|exact Hnd]|].
  apply (saveNote_edit_first 10 "u" st a a eq_refl Hg Hnd (or_introl eq_refl) eq_refl);
    [|reflexivity|reflexivity].
  intros n [<-|[<-|[]]] E; simpl in *; [congruence|lia].
Defined.

(** ** Leaving the editor without saving *)

Lemma editor_event_frame (e : EditorEvent) (st : App) :
  notes (editor_event e st) = notes st /\ storage (editor_event e st) = storage st.
Proof.
  destruct e as [s|s|s|key| |tag]; simpl; try (split; reflexivity).
  - unfold handleTagInputKeyDown. destruct (String.eqb key "Enter"); simpl; [|split; reflexivity].
    unfold addTag. destruct (_ && _); split; reflexivity.
  - unfold addTag. destruct (_ && _); split; reflexivity.
Qed.

(** Whatever is typed, added or removed in the editor, pressing Back
    ([cancelEdit]) returns to the list with the collection and the slot as
    they were: the editor writes neither until Save. *)
Theorem editor_then_back (es : list EditorEvent) (st : App) :
  notes (cancelEdit (editor_events es st)) = notes st /\
  storage (cancelEdit (editor_events es st)) = storage st /\
  isEditing (cancelEdit (editor_events es st)) = false.
Proof.
  unfold editor_events. cbn [cancelEdit notes storage isEditing].
  revert st. induction es as [|e es IH]; intros st; simpl; [repeat split|].
  destruct (IH (editor_event e st)) as [H1 [H2 _]].
  destruct (editor_event_frame e st) as [F1 F2].
  split; [congruence|split; [congruence|reflexivity]].
Qed.
